(** * Inline visitors over Arrow array data

    A shallow embedding of [cpp/src/arrow/visitor_inline.h]: the three
    type-tag dispatchers ([VisitTypeInline], [VisitArrayInline],
    [VisitScalarInline]), the block-driven validity loops
    ([detail::VisitBitBlocks], [detail::VisitBitBlocksVoid],
    [VisitNullBitmapInline]), the four [ArrayDataInlineVisitor]
    specialisations and [ArrayDataVisitor].

    Conventions of the embedding.
    - [int64_t] quantities (offsets, lengths, positions) are integers of
      [Z].  Signed overflow is undefined in C++, so it has no wrap-around
      to write out; the one defined conversion on the paths modelled here,
      from a signed integer to [size_t] in the constructor of
      [util::string_view], is [to_size_t].
    - A callback is a C++ closure.  Its captured, mutable environment is
      an explicit state of type [Cap], threaded through every call, so that
      the order and the number of calls are observable in the result.
    - The [while (position < length)] loops take a fuel argument and
      return [None] when it runs out; every theorem about a result shows
      how much fuel is enough. *)

From Stdlib Require Import ZArith List Bool String Lia.
Import ListNotations.
Local Open Scope Z_scope.

(** ** Status values *)

Module Status.

(** Modelled from the spec: [arrow::Status] ([arrow/status.h] is not among
    the sources).  A status is either success or a failure carrying a code
    and a message; "not implemented" is one of the codes. *)
Inductive StatusCode : Type :=
| OutOfMemory | KeyError | TypeError | Invalid | IOError
| CapacityError | IndexError | UnknownError | NotImplementedCode.

Inductive t : Type :=
| OK
| Failure (code : StatusCode) (msg : string).

(** [Status::ok()] *)
Definition ok (s : t) : bool :=
  match s with OK => true | Failure _ _ => false end.

(** [Status::NotImplemented(msg)] *)
Definition NotImplemented (msg : string) : t := Failure NotImplementedCode msg.

(** [Status::IsNotImplemented()] *)
Definition IsNotImplemented (s : t) : bool :=
  match s with Failure NotImplementedCode _ => true | _ => false end.

End Status.

Definition Status : Type := Status.t.

(** ** Buffers and pointers *)

(** A buffer is the sequence of its elements, read through the element type
    the visiting code gives it ([uint8_t] for bitmaps and value bytes,
    [offset_type] for offsets, [c_type] for numeric values).  How raw bytes
    are reinterpreted (endianness, alignment) is below this model. *)
Definition Buffer : Type := list Z.

(** Where a data pointer points: nowhere, into the data of [arr.buffers[k]],
    or at the [constexpr uint8_t empty_value = 0] of the binary visitor. *)
Inductive Base : Type :=
| Nullptr
| BufferData (k : nat)
| EmptyValue.

Record Pointer : Type := { base : Base; index : Z }.

(** [p + n] *)
Definition ptr_add (p : Pointer) (n : Z) : Pointer :=
  {| base := base p; index := index p + n |}.

(** Conversion of a signed integer to [size_t] (64 bits). *)
Definition to_size_t (n : Z) : Z := n mod 2 ^ 64.

(** [util::string_view(ptr, len)]: a borrowed view, never a copy. *)
Record string_view : Type := { sv_data : Pointer; sv_size : Z }.

Definition make_string_view (p : Pointer) (len : Z) : string_view :=
  {| sv_data := p; sv_size := to_size_t len |}.

(** ** Runs of the bit-block counter *)

(** Modelled from the spec: [internal::BitBlockCount]
    ([arrow/util/bit_block_counter.h] is not among the sources): a run
    reports a length and whether all of its bits are set, all are clear, or
    neither. *)
Record BitBlockCount : Type :=
  { block_length : Z; AllSet : bool; NoneSet : bool }.


(** ** Types, arrays and scalars *)

Module DataType.

(** Modelled from the spec: [arrow::DataType] ([arrow/type.h] is not among
    the sources).  The tag is the integer value of the [Type::type]
    enumerator, so that a value outside the enumeration can be written;
    [byte_width] is what [FixedSizeBinaryType::byte_width()] answers. *)
Record t : Type := { id : Z; byte_width : Z; ToString : string }.

End DataType.

(** Element [i] of a buffer.  Reading outside the buffer is undefined in
    C++; the model answers 0 there. *)
Definition elem (b : Buffer) (i : Z) : Z :=
  if i <? 0 then 0 else nth (Z.to_nat i) b 0.

Module ArrayData.

(** Modelled from the spec: [arrow::ArrayData] ([arrow/array.h] is not among
    the sources): the type, the logical length, offset and null count, and
    the buffers, each of which may be absent. *)
Record t : Type :=
  { type : DataType.t;
    length : Z;
    null_count : Z;
    offset : Z;
    buffers : list (option Buffer) }.

(** [arr.buffers[k]]; an index past the vector's end reads as an absent
    buffer. *)
Definition buffer (arr : t) (k : nat) : option Buffer := nth k (buffers arr) None.

(** Modelled from the spec: [ArrayData::GetValues<T>(i, absolute_offset)]:
    the start of buffer [i] read as an array of [T], advanced by
    [absolute_offset] elements; a null pointer when the buffer is absent. *)
Definition GetValues_absolute (arr : t) (i : nat) (absolute_offset : Z) : Pointer :=
  match buffer arr i with
  | Some _ => {| base := BufferData i; index := absolute_offset |}
  | None => {| base := Nullptr; index := 0 |}
  end.

(** Modelled from the spec: [ArrayData::GetValues<T>(i)] applies the array's
    own offset. *)
Definition GetValues (arr : t) (i : nat) : Pointer :=
  GetValues_absolute arr i (offset arr).

(** [*p] for a pointer obtained from [arr].  The byte [empty_value] is 0. *)
Definition load (arr : t) (p : Pointer) : Z :=
  match base p with
  | Nullptr => 0
  | BufferData k =>
      match buffer arr k with
      | Some b => elem b (index p)
      | None => 0
      end
  | EmptyValue => 0
  end.

End ArrayData.

Module Array.

(** Modelled from the spec: [arrow::Array], a typed handle on an
    [ArrayData]; [type_id()] is the tag of the data's type. *)
Record t : Type := { data : ArrayData.t }.

Definition type_id (a : t) : Z := DataType.id (ArrayData.type (data a)).

End Array.

Module Scalar.

(** Modelled from the spec: [arrow::Scalar] ([arrow/scalar.h] is not among
    the sources): a type and a single value or null marker. *)
Record t : Type := { type : DataType.t; value : option Z }.

End Scalar.

(** ** The type classes of the dispatch macros *)

Module TypeClass.

(** The arguments that [ARROW_GENERATE_FOR_ALL_TYPES] passes to its action:
    [TYPE_CLASS] names the classes [TYPE_CLASS##Type], [TYPE_CLASS##Scalar]
    and the array class of [TypeTraits<TYPE_CLASS##Type>]. *)
Inductive t : Type :=
| Null | Boolean
| Int8 | UInt8 | Int16 | UInt16 | Int32 | UInt32 | Int64 | UInt64
| HalfFloat | Float | Double
| String | Binary | LargeString | LargeBinary | FixedSizeBinary
| Duration | Date32 | Date64 | Timestamp | Time32 | Time64
| MonthInterval | DayTimeInterval | Decimal128
| List | LargeList | Map | FixedSizeList | Struct
| SparseUnion | DenseUnion | Dictionary | Extension.

End TypeClass.

Definition ARROW_GENERATE_FOR_ALL_INTEGER_TYPES {A} (ACTION : TypeClass.t -> A) : list A :=
  [ACTION TypeClass.Int8; ACTION TypeClass.UInt8;
   ACTION TypeClass.Int16; ACTION TypeClass.UInt16;
   ACTION TypeClass.Int32; ACTION TypeClass.UInt32;
   ACTION TypeClass.Int64; ACTION TypeClass.UInt64].

Definition ARROW_GENERATE_FOR_ALL_NUMERIC_TYPES {A} (ACTION : TypeClass.t -> A) : list A :=
  ARROW_GENERATE_FOR_ALL_INTEGER_TYPES ACTION
    ++ [ACTION TypeClass.HalfFloat; ACTION TypeClass.Float; ACTION TypeClass.Double].

Definition ARROW_GENERATE_FOR_ALL_TYPES {A} (ACTION : TypeClass.t -> A) : list A :=
  [ACTION TypeClass.Null; ACTION TypeClass.Boolean]
    ++ ARROW_GENERATE_FOR_ALL_NUMERIC_TYPES ACTION
    ++ [ACTION TypeClass.String; ACTION TypeClass.Binary;
        ACTION TypeClass.LargeString; ACTION TypeClass.LargeBinary;
        ACTION TypeClass.FixedSizeBinary; ACTION TypeClass.Duration;
        ACTION TypeClass.Date32; ACTION TypeClass.Date64;
        ACTION TypeClass.Timestamp; ACTION TypeClass.Time32;
        ACTION TypeClass.Time64; ACTION TypeClass.MonthInterval;
        ACTION TypeClass.DayTimeInterval; ACTION TypeClass.Decimal128;
        ACTION TypeClass.List; ACTION TypeClass.LargeList;
        ACTION TypeClass.Map; ACTION TypeClass.FixedSizeList;
        ACTION TypeClass.Struct; ACTION TypeClass.SparseUnion;
        ACTION TypeClass.DenseUnion; ACTION TypeClass.Dictionary;
        ACTION TypeClass.Extension].

(** A [switch]: the body of the first [case] whose label is the scrutinee,
    the [default] when there is none. *)
Fixpoint switch {A} (scrutinee : Z) (cases : list (Z * A)) (default : A) : A :=
  match cases with
  | [] => default
  | (label, body) :: cases' =>
      if scrutinee =? label then body else switch scrutinee cases' default
  end.

(** ** Counted loops *)

(** A counted loop whose body is wrapped in [ARROW_RETURN_NOT_OK], with [n]
    iterations to go and the running index at [position]:
    [for (int64_t i = 0; i < n; ++i, ++position)] in [VisitBitBlocks], where
    the body reads [position], and [for (int64_t i = 0; i < n; ++i)] in
    [VisitNullBitmapInline], where the body reads [i] and the index starts
    at 0.  A failing call returns from the enclosing function at once, so
    the status comes back with the index and the state. *)
Fixpoint for_status {Cap} (n : nat) (body : Z -> Cap -> Status * Cap)
         (position : Z) (c : Cap) : Status * (Z * Cap) :=
  match n with
  | O => (Status.OK, (position, c))
  | S n' =>
      let (st, c') := body position c in
      if Status.ok st then for_status n' body (position + 1) c'
      else (st, (position, c'))
  end.

(** The same loop around a [void] body. *)
Fixpoint for_void {Cap} (n : nat) (body : Z -> Cap -> Cap)
         (position : Z) (c : Cap) : Z * Cap :=
  match n with
  | O => (position, c)
  | S n' => for_void n' body (position + 1) (body position c)
  end.

(** ** Reference scans

    What a traversal is compared with: the calls for a list of positions,
    made one after the other. *)

(** [positions n start] is [start; start + 1; ...; start + n - 1]. *)
Fixpoint positions (n : nat) (start : Z) : list Z :=
  match n with
  | O => []
  | S n' => start :: positions n' (start + 1)
  end.

(** The calls in order, stopping after the first one that fails. *)
Fixpoint run_status {Cap} (calls : list (Cap -> Status * Cap)) (c : Cap)
  : Status * Cap :=
  match calls with
  | [] => (Status.OK, c)
  | call :: calls' =>
      let (st, c') := call c in
      if Status.ok st then run_status calls' c' else (st, c')
  end.

(** The calls in order, all of them. *)
Fixpoint run_void {Cap} (calls : list (Cap -> Cap)) (c : Cap) : Cap :=
  match calls with
  | [] => c
  | call :: calls' => run_void calls' (call c)
  end.

(** Callbacks that write down what they are called with. *)
Inductive Call : Type :=
| CallNotNull (position : Z)
| CallNull.

Definition record_not_null (position : Z) (log : list Call) : list Call :=
  log ++ [CallNotNull position].

Definition record_null (log : list Call) : list Call := log ++ [CallNull].

Definition record_void {A} (v : A) (log : list A) : list A := log ++ [v].

Definition record_status {A} (v : A) (log : list A) : Status * list A :=
  (Status.OK, log ++ [v]).

(** A status callback run next to a log of the calls made to it. *)
Definition traced {Cap} (call : Cap -> Status * Cap) (event : Call)
           (cl : Cap * list Call) : Status * (Cap * list Call) :=
  let (st, c') := call (fst cl) in (st, (c', snd cl ++ [event])).

(** ** A word-wise bit-block counter

    A counter that keeps the contract of the spec, with which the
    traversals are run on sample arrays. *)

Module BitUtil.

(** Modelled from the spec: [BitUtil::GetBit] ([arrow/util/bit_util.h] is not
    among the sources): the bit-test on a packed bitmap, bit [i] being bit
    [i mod 8] of byte [i / 8].  A null bitmap has no bit to test; the model
    answers [false]. *)
Definition GetBit (bits : option Buffer) (i : Z) : bool :=
  match bits with
  | Some b => Z.testbit (elem b (Z.shiftr i 3)) (Z.land i 7)
  | None => false
  end.

(** Modelled from the spec: the number of set bits among the [n] bits from
    [bit_offset] on, by which the counter tells an all-set run from an
    all-clear one. *)
Definition CountSetBits (bits : option Buffer) (bit_offset : Z) (n : nat) : Z :=
  Z.of_nat (List.length (filter (GetBit bits) (positions n bit_offset))).

End BitUtil.

Module WordCounter.

(** Modelled from the spec: [internal::OptionalBitBlockCounter]
    ([arrow/util/bit_block_counter.h] is not among the sources).  Given a
    bitmap or none, a bit offset and a length, it produces runs until their
    lengths add up to the length; a run is at most one 64-bit word, and
    without a bitmap every run is reported all set. *)
Record t : Type :=
  { bitmap : option Buffer; bit_offset : Z; bits_remaining : Z }.

(** The scan granularity, a 64-bit word, and the longest run reported
    without a bitmap. *)
Definition kWordBits : Z := 64.
Definition kMaxBlockSize : Z := 32767.

(** The constructor [OptionalBitBlockCounter(validity_bitmap, offset, length)]. *)
Definition make (validity_bitmap : option Buffer) (offset length : Z) : t :=
  {| bitmap := validity_bitmap; bit_offset := offset; bits_remaining := length |}.

(** Modelled from the spec: the next run, the longest the granularity
    allows within what remains, with its two flags. *)
Definition NextBlock (counter : t) : BitBlockCount * t :=
  let limit := match bitmap counter with Some _ => kWordBits | None => kMaxBlockSize end in
  let run_length := Z.max 0 (Z.min limit (bits_remaining counter)) in
  let popcount :=
    match bitmap counter with
    | Some _ => BitUtil.CountSetBits (bitmap counter) (bit_offset counter) (Z.to_nat run_length)
    | None => run_length
    end in
  ({| block_length := run_length;
      AllSet := run_length =? popcount;
      NoneSet := popcount =? 0 |},
   {| bitmap := bitmap counter;
      bit_offset := bit_offset counter + run_length;
      bits_remaining := bits_remaining counter - run_length |}).

End WordCounter.

(** ** Sample arrays and a sample numbering of the tags *)

Module Sample.

(** One numbering of the tags, each class with a tag of its own; 36 is the
    first integer that is the tag of no class. *)
Definition type_id (TYPE_CLASS : TypeClass.t) : Z :=
  match TYPE_CLASS with
  | TypeClass.Null => 0 | TypeClass.Boolean => 1
  | TypeClass.UInt8 => 2 | TypeClass.Int8 => 3
  | TypeClass.UInt16 => 4 | TypeClass.Int16 => 5
  | TypeClass.UInt32 => 6 | TypeClass.Int32 => 7
  | TypeClass.UInt64 => 8 | TypeClass.Int64 => 9
  | TypeClass.HalfFloat => 10 | TypeClass.Float => 11 | TypeClass.Double => 12
  | TypeClass.String => 13 | TypeClass.Binary => 14
  | TypeClass.FixedSizeBinary => 15
  | TypeClass.Date32 => 16 | TypeClass.Date64 => 17
  | TypeClass.Timestamp => 18
  | TypeClass.Time32 => 19 | TypeClass.Time64 => 20
  | TypeClass.MonthInterval => 21 | TypeClass.DayTimeInterval => 22
  | TypeClass.Decimal128 => 23
  | TypeClass.List => 24 | TypeClass.Struct => 25
  | TypeClass.SparseUnion => 26 | TypeClass.DenseUnion => 27
  | TypeClass.Dictionary => 28 | TypeClass.Map => 29
  | TypeClass.Extension => 30 | TypeClass.FixedSizeList => 31
  | TypeClass.Duration => 32
  | TypeClass.LargeString => 33 | TypeClass.LargeBinary => 34
  | TypeClass.LargeList => 35
  end.

Definition data_type (TYPE_CLASS : TypeClass.t) (name : string) : DataType.t :=
  {| DataType.id := type_id TYPE_CLASS;
     DataType.byte_width := 0;
     DataType.ToString := name |}.

(** A type whose tag belongs to no class. *)
Definition unknown_type : DataType.t :=
  {| DataType.id := 36; DataType.byte_width := 0; DataType.ToString := "unknown" |}.

(** The 32-bit integers [1, null, 3, 4, null]: validity bits 0, 2 and 3. *)
Definition int32_array : ArrayData.t :=
  {| ArrayData.type := data_type TypeClass.Int32 "int32";
     ArrayData.length := 5;
     ArrayData.null_count := 2;
     ArrayData.offset := 0;
     ArrayData.buffers := [Some [13]; Some [1; 0; 3; 4; 0]] |}.

(** The bytes of "abcdefg". *)
Definition abcdefg : Buffer := [97; 98; 99; 100; 101; 102; 103].

(** The strings abc, the empty string and defg, all valid, without a
    validity bitmap. *)
Definition string_array : ArrayData.t :=
  {| ArrayData.type := data_type TypeClass.String "string";
     ArrayData.length := 3;
     ArrayData.null_count := 0;
     ArrayData.offset := 0;
     ArrayData.buffers := [None; Some [0; 3; 3; 7]; Some abcdefg] |}.

(** The slice of [string_array] that starts at its element 1. *)
Definition string_slice : ArrayData.t :=
  {| ArrayData.type := data_type TypeClass.String "string";
     ArrayData.length := 2;
     ArrayData.null_count := 0;
     ArrayData.offset := 1;
     ArrayData.buffers := [None; Some [0; 3; 3; 7]; Some abcdefg] |}.

(** Three strings of length zero and no value buffer at all. *)
Definition empty_strings : ArrayData.t :=
  {| ArrayData.type := data_type TypeClass.String "string";
     ArrayData.length := 3;
     ArrayData.null_count := 1;
     ArrayData.offset := 0;
     ArrayData.buffers := [Some [5]; Some [0; 0; 0; 0]; None] |}.

(** Records of 4 bytes; the slice of 3 from element 2, the first of them
    null (validity bits 3 and 4 of the unsliced array). *)
Definition fixed_size_binary_slice : ArrayData.t :=
  {| ArrayData.type :=
       {| DataType.id := type_id TypeClass.FixedSizeBinary;
          DataType.byte_width := 4;
          DataType.ToString := "fixed_size_binary[4]" |};
     ArrayData.length := 3;
     ArrayData.null_count := 1;
     ArrayData.offset := 2;
     ArrayData.buffers :=
       [Some [24];
        Some [0; 1; 2; 3; 4; 5; 6; 7; 8; 9; 10; 11; 12; 13; 14; 15; 16; 17; 18; 19]] |}.

(** 128 validity bits of which bits 60 to 67 are set: a valid run across
    the boundary between the first and the second 64-bit word. *)
Definition boundary_bitmap : Buffer :=
  [0; 0; 0; 0; 0; 0; 0; 240; 15; 0; 0; 0; 0; 0; 0; 0].

(** A dispatch visitor that accepts everything and counts its calls. *)
Definition counting_visitor {X} : TypeClass.t -> X -> nat -> Status * nat :=
  fun _ _ calls => (Status.OK, S calls).

(** A callback that fails on the null it is handed and accepts values. *)
Definition fail_on_null (v : option Z) (seen : list Z) : Status * list Z :=
  match v with
  | Some x => (Status.OK, seen ++ [x])
  | None => (Status.Failure Status.Invalid "null", seen)
  end.

(** A counter that makes no progress: every run it reports is empty. *)
Definition stuck_make (validity_bitmap : option Buffer) (offset length : Z) : unit := tt.

Definition stuck_NextBlock (counter : unit) : BitBlockCount * unit :=
  ({| block_length := 0; AllSet := true; NoneSet := true |}, tt).

(** [int32_array] with other integers under its two nulls. *)
Definition int32_array_other_nulls : ArrayData.t :=
  {| ArrayData.type := data_type TypeClass.Int32 "int32";
     ArrayData.length := 5;
     ArrayData.null_count := 2;
     ArrayData.offset := 0;
     ArrayData.buffers := [Some [13]; Some [1; 99; 3; 4; 77]] |}.


(** A validity callback that refuses nulls. *)
Definition fail_on_false (valid : bool) (seen : nat) : Status * nat :=
  if valid then (Status.OK, S seen) else (Status.Failure Status.Invalid "null", seen).

End Sample.

(** ** The visitors *)

Section VisitorInline.

(** The collaborators declared in headers that are not among the sources are
    parameters of the development: the counter class with its constructor
    and its [NextBlock] method, [BitUtil::GetBit], and the [type_id]
    constants of the type classes.  A bitmap pointer [const uint8_t*] is an
    [option Buffer], [None] being [nullptr]. *)
Variable Counter : Type.
Variable OptionalBitBlockCounter : option Buffer -> Z -> Z -> Counter.
Variable NextBlock : Counter -> BitBlockCount * Counter.
Variable GetBit : option Buffer -> Z -> bool.
Variable type_id : TypeClass.t -> Z.

(** *** [detail::VisitBitBlocks] and [detail::VisitBitBlocksVoid] *)

(** [bitmap_buf->data()], or [nullptr] for a null [bitmap_buf]. *)
Definition bitmap_of (bitmap_buf : option Buffer) : option Buffer :=
  match bitmap_buf with
  | Some b => Some b
  | None => None
  end.

(** The three-way branch on a block, lines 133-149. *)
Definition VisitBitBlocks_block {Cap} (bitmap : option Buffer) (offset : Z)
           (visit_not_null : Z -> Cap -> Status * Cap)
           (visit_null : Cap -> Status * Cap)
           (block : BitBlockCount) (position : Z) (c : Cap)
  : Status * (Z * Cap) :=
  if AllSet block then
    for_status (Z.to_nat (block_length block)) visit_not_null position c
  else if NoneSet block then
    for_status (Z.to_nat (block_length block)) (fun _ => visit_null) position c
  else
    for_status (Z.to_nat (block_length block))
      (fun position c =>
         if GetBit bitmap (offset + position) then visit_not_null position c
         else visit_null c)
      position c.

(** The loop [while (position < length)], lines 131-151. *)
Fixpoint VisitBitBlocks_while {Cap} (bitmap : option Buffer) (offset length : Z)
         (visit_not_null : Z -> Cap -> Status * Cap)
         (visit_null : Cap -> Status * Cap)
         (fuel : nat) (bit_counter : Counter) (position : Z) (c : Cap)
  : option (Status * Cap) :=
  if position <? length then
    match fuel with
    | O => None
    | S fuel' =>
        let (block, bit_counter') := NextBlock bit_counter in
        let '(st, (position', c')) :=
          VisitBitBlocks_block bitmap offset visit_not_null visit_null
            block position c in
        if Status.ok st then
          VisitBitBlocks_while bitmap offset length visit_not_null visit_null
            fuel' bit_counter' position' c'
        else Some (st, c')
    end
  else Some (Status.OK, c).

Definition VisitBitBlocks {Cap} (bitmap_buf : option Buffer) (offset length : Z)
           (visit_not_null : Z -> Cap -> Status * Cap)
           (visit_null : Cap -> Status * Cap)
           (fuel : nat) (c : Cap) : option (Status * Cap) :=
  let bitmap := bitmap_of bitmap_buf in
  let bit_counter := OptionalBitBlockCounter bitmap offset length in
  let position := 0 in
  VisitBitBlocks_while bitmap offset length visit_not_null visit_null
    fuel bit_counter position c.

(** The three-way branch on a block, lines 166-182. *)
Definition VisitBitBlocksVoid_block {Cap} (bitmap : option Buffer) (offset : Z)
           (visit_not_null : Z -> Cap -> Cap) (visit_null : Cap -> Cap)
           (block : BitBlockCount) (position : Z) (c : Cap) : Z * Cap :=
  if AllSet block then
    for_void (Z.to_nat (block_length block)) visit_not_null position c
  else if NoneSet block then
    for_void (Z.to_nat (block_length block)) (fun _ => visit_null) position c
  else
    for_void (Z.to_nat (block_length block))
      (fun position c =>
         if GetBit bitmap (offset + position) then visit_not_null position c
         else visit_null c)
      position c.

Fixpoint VisitBitBlocksVoid_while {Cap} (bitmap : option Buffer) (offset length : Z)
         (visit_not_null : Z -> Cap -> Cap) (visit_null : Cap -> Cap)
         (fuel : nat) (bit_counter : Counter) (position : Z) (c : Cap)
  : option Cap :=
  if position <? length then
    match fuel with
    | O => None
    | S fuel' =>
        let (block, bit_counter') := NextBlock bit_counter in
        let (position', c') :=
          VisitBitBlocksVoid_block bitmap offset visit_not_null visit_null
            block position c in
        VisitBitBlocksVoid_while bitmap offset length visit_not_null visit_null
          fuel' bit_counter' position' c'
    end
  else Some c.

Definition VisitBitBlocksVoid {Cap} (bitmap_buf : option Buffer) (offset length : Z)
           (visit_not_null : Z -> Cap -> Cap) (visit_null : Cap -> Cap)
           (fuel : nat) (c : Cap) : option Cap :=
  let bitmap := bitmap_of bitmap_buf in
  let bit_counter := OptionalBitBlockCounter bitmap offset length in
  let position := 0 in
  VisitBitBlocksVoid_while bitmap offset length visit_not_null visit_null
    fuel bit_counter position c.

(** *** [VisitNullBitmapInline], both overloads *)

Definition VisitNullBitmapInline_block {Cap} (valid_bits : option Buffer)
           (func : bool -> Cap -> Status * Cap)
           (block : BitBlockCount) (offset_position : Z) (c : Cap)
  : Status * (Z * Cap) :=
  if AllSet block then
    for_status (Z.to_nat (block_length block)) (fun _ => func true) 0 c
  else if NoneSet block then
    for_status (Z.to_nat (block_length block)) (fun _ => func false) 0 c
  else
    for_status (Z.to_nat (block_length block))
      (fun i => func (GetBit valid_bits (offset_position + i))) 0 c.

Fixpoint VisitNullBitmapInline_while {Cap} (valid_bits : option Buffer)
         (num_values : Z) (func : bool -> Cap -> Status * Cap)
         (fuel : nat) (bit_counter : Counter) (position offset_position : Z)
         (c : Cap) : option (Status * Cap) :=
  if position <? num_values then
    match fuel with
    | O => None
    | S fuel' =>
        let (block, bit_counter') := NextBlock bit_counter in
        let '(st, (_, c')) :=
          VisitNullBitmapInline_block valid_bits func block offset_position c in
        if Status.ok st then
          VisitNullBitmapInline_while valid_bits num_values func fuel' bit_counter'
            (position + block_length block)
            (offset_position + block_length block) c'
        else Some (st, c')
    end
  else Some (Status.OK, c).

(** Lines 423-451.  [ARROW_UNUSED(null_count)]: the argument is taken and
    not looked at. *)
Definition VisitNullBitmapInline {Cap} (valid_bits : option Buffer)
           (valid_bits_offset num_values null_count : Z)
           (func : bool -> Cap -> Status * Cap)
           (fuel : nat) (c : Cap) : option (Status * Cap) :=
  let bit_counter := OptionalBitBlockCounter valid_bits valid_bits_offset num_values in
  let position := 0 in
  let offset_position := valid_bits_offset in
  VisitNullBitmapInline_while valid_bits num_values func
    fuel bit_counter position offset_position c.

Definition VisitNullBitmapInlineVoid_block {Cap} (valid_bits : option Buffer)
           (func : bool -> Cap -> Cap)
           (block : BitBlockCount) (offset_position : Z) (c : Cap) : Z * Cap :=
  if AllSet block then
    for_void (Z.to_nat (block_length block)) (fun _ => func true) 0 c
  else if NoneSet block then
    for_void (Z.to_nat (block_length block)) (fun _ => func false) 0 c
  else
    for_void (Z.to_nat (block_length block))
      (fun i => func (GetBit valid_bits (offset_position + i))) 0 c.

Fixpoint VisitNullBitmapInlineVoid_while {Cap} (valid_bits : option Buffer)
         (num_values : Z) (func : bool -> Cap -> Cap)
         (fuel : nat) (bit_counter : Counter) (position offset_position : Z)
         (c : Cap) : option Cap :=
  if position <? num_values then
    match fuel with
    | O => None
    | S fuel' =>
        let (block, bit_counter') := NextBlock bit_counter in
        let (_, c') :=
          VisitNullBitmapInlineVoid_block valid_bits func block offset_position c in
        VisitNullBitmapInlineVoid_while valid_bits num_values func fuel' bit_counter'
          (position + block_length block)
          (offset_position + block_length block) c'
    end
  else Some c.

(** Lines 453-480. *)
Definition VisitNullBitmapInlineVoid {Cap} (valid_bits : option Buffer)
           (valid_bits_offset num_values null_count : Z)
           (func : bool -> Cap -> Cap)
           (fuel : nat) (c : Cap) : option Cap :=
  let bit_counter := OptionalBitBlockCounter valid_bits valid_bits_offset num_values in
  let position := 0 in
  let offset_position := valid_bits_offset in
  VisitNullBitmapInlineVoid_while valid_bits num_values func
    fuel bit_counter position offset_position c.

(** *** [internal::ArrayDataInlineVisitor] *)

(** The [enable_if] conditions that select a specialisation. *)
Inductive Category : Type :=
| has_c_type
| is_boolean
| base_binary
| fixed_size_binary.

(** What the specialisations have in common: the scalar type handed to the
    callback, wrapped in [util::optional], and the two traversals. *)
Class ArrayDataInlineVisitor (T : Category) : Type :=
  { c_type : Type;
    VisitStatus :
      forall {Cap : Type}, ArrayData.t -> (option c_type -> Cap -> Status * Cap) ->
                           nat -> Cap -> option (Status * Cap);
    VisitVoid :
      forall {Cap : Type}, ArrayData.t -> (option c_type -> Cap -> Cap) ->
                           nat -> Cap -> option Cap }.

(** Numeric and primitive C-compatible types, lines 189-211. *)
Definition VisitStatus_c_type {Cap} (arr : ArrayData.t)
           (func : option Z -> Cap -> Status * Cap) (fuel : nat) (c : Cap)
  : option (Status * Cap) :=
  let data := ArrayData.GetValues arr 1 in
  VisitBitBlocks (ArrayData.buffer arr 0) (ArrayData.offset arr) (ArrayData.length arr)
    (fun i => func (Some (ArrayData.load arr (ptr_add data i))))
    (func None)
    fuel c.

Definition VisitVoid_c_type {Cap} (arr : ArrayData.t)
           (func : option Z -> Cap -> Cap) (fuel : nat) (c : Cap) : option Cap :=
  let data := ArrayData.GetValues arr 1 in
  VisitBitBlocksVoid (ArrayData.buffer arr 0) (ArrayData.offset arr) (ArrayData.length arr)
    (fun i => func (Some (ArrayData.load arr (ptr_add data i))))
    (func None)
    fuel c.

(** Boolean, lines 213-239.  [data] is [arr.buffers[1]->data()]. *)
Definition VisitStatus_boolean {Cap} (arr : ArrayData.t)
           (func : option bool -> Cap -> Status * Cap) (fuel : nat) (c : Cap)
  : option (Status * Cap) :=
  let offset := ArrayData.offset arr in
  let data := ArrayData.buffer arr 1 in
  VisitBitBlocks (ArrayData.buffer arr 0) offset (ArrayData.length arr)
    (fun i => func (Some (GetBit data (offset + i))))
    (func None)
    fuel c.

Definition VisitVoid_boolean {Cap} (arr : ArrayData.t)
           (func : option bool -> Cap -> Cap) (fuel : nat) (c : Cap) : option Cap :=
  let offset := ArrayData.offset arr in
  let data := ArrayData.buffer arr 1 in
  VisitBitBlocksVoid (ArrayData.buffer arr 0) offset (ArrayData.length arr)
    (fun i => func (Some (GetBit data (offset + i))))
    (func None)
    fuel c.

(** Binary, String..., lines 241-294. *)

(** [&empty_value] *)
Definition empty_value_ptr : Pointer := {| base := EmptyValue; index := 0 |}.

(** Lines 252-259 and 276-283: the base of the value bytes. *)
Definition binary_data (arr : ArrayData.t) : Pointer :=
  match ArrayData.buffer arr 2 with
  | None => empty_value_ptr
  | Some _ => ArrayData.GetValues_absolute arr 2 0
  end.

(** The view built by the not-null callback, lines 263-264 and 288-289. *)
Definition binary_value (arr : ArrayData.t) (offsets data : Pointer) (i : Z)
  : string_view :=
  make_string_view
    (ptr_add data (ArrayData.load arr (ptr_add offsets i)))
    (ArrayData.load arr (ptr_add offsets (i + 1))
     - ArrayData.load arr (ptr_add offsets i)).

Definition VisitStatus_binary {Cap} (arr : ArrayData.t)
           (func : option string_view -> Cap -> Status * Cap) (fuel : nat) (c : Cap)
  : option (Status * Cap) :=
  let offsets := ArrayData.GetValues arr 1 in
  let data := binary_data arr in
  VisitBitBlocks (ArrayData.buffer arr 0) (ArrayData.offset arr) (ArrayData.length arr)
    (fun i => let value := binary_value arr offsets data i in func (Some value))
    (func None)
    fuel c.

Definition VisitVoid_binary {Cap} (arr : ArrayData.t)
           (func : option string_view -> Cap -> Cap) (fuel : nat) (c : Cap)
  : option Cap :=
  let offsets := ArrayData.GetValues arr 1 in
  let data := binary_data arr in
  VisitBitBlocksVoid (ArrayData.buffer arr 0) (ArrayData.offset arr) (ArrayData.length arr)
    (fun i => let value := binary_value arr offsets data i in func (Some value))
    (func None)
    fuel c.

(** FixedSizeBinary, Decimal128, lines 296-342.  Both lambdas capture the
    local [data] by reference and advance it, so it travels with the
    callback's own state. *)
Definition VisitStatus_fixed_size_binary {Cap} (arr : ArrayData.t)
           (func : option string_view -> Cap -> Status * Cap) (fuel : nat) (c : Cap)
  : option (Status * Cap) :=
  let byte_width := DataType.byte_width (ArrayData.type arr) in
  let data := ArrayData.GetValues_absolute arr 1 (ArrayData.offset arr * byte_width) in
  match
    VisitBitBlocks (ArrayData.buffer arr 0) (ArrayData.offset arr) (ArrayData.length arr)
      (fun (i : Z) '(data, c) =>
         let value := make_string_view data byte_width in
         let data := ptr_add data byte_width in
         let (st, c') := func (Some value) c in (st, (data, c')))
      (fun '(data, c) =>
         let data := ptr_add data byte_width in
         let (st, c') := func None c in (st, (data, c')))
      fuel (data, c)
  with
  | Some (st, (_, c')) => Some (st, c')
  | None => None
  end.

Definition VisitVoid_fixed_size_binary {Cap} (arr : ArrayData.t)
           (func : option string_view -> Cap -> Cap) (fuel : nat) (c : Cap)
  : option Cap :=
  let byte_width := DataType.byte_width (ArrayData.type arr) in
  let data := ArrayData.GetValues_absolute arr 1 (ArrayData.offset arr * byte_width) in
  match
    VisitBitBlocksVoid (ArrayData.buffer arr 0) (ArrayData.offset arr) (ArrayData.length arr)
      (fun (i : Z) '(data, c) =>
         let value := make_string_view data byte_width in
         let data := ptr_add data byte_width in
         (data, func (Some value) c))
      (fun '(data, c) =>
         let data := ptr_add data byte_width in
         (data, func None c))
      fuel (data, c)
  with
  | Some (_, c') => Some c'
  | None => None
  end.

#[global] Instance ArrayDataInlineVisitor_c_type : ArrayDataInlineVisitor has_c_type :=
  {| c_type := Z;
     VisitStatus := @VisitStatus_c_type;
     VisitVoid := @VisitVoid_c_type |}.

#[global] Instance ArrayDataInlineVisitor_boolean : ArrayDataInlineVisitor is_boolean :=
  {| c_type := bool;
     VisitStatus := @VisitStatus_boolean;
     VisitVoid := @VisitVoid_boolean |}.

#[global] Instance ArrayDataInlineVisitor_binary : ArrayDataInlineVisitor base_binary :=
  {| c_type := string_view;
     VisitStatus := @VisitStatus_binary;
     VisitVoid := @VisitVoid_binary |}.

#[global] Instance ArrayDataInlineVisitor_fixed_size_binary
  : ArrayDataInlineVisitor fixed_size_binary :=
  {| c_type := string_view;
     VisitStatus := @VisitStatus_fixed_size_binary;
     VisitVoid := @VisitVoid_fixed_size_binary |}.

(** *** [VisitArrayDataInline], lines 357-369: one name, two overloads chosen
    by the return type of [func]. *)
Definition VisitArrayDataInline {T} {V : ArrayDataInlineVisitor T} {Cap}
           (arr : ArrayData.t) (func : option c_type -> Cap -> Status * Cap)
           (fuel : nat) (c : Cap) : option (Status * Cap) :=
  VisitStatus arr func fuel c.

Definition VisitArrayDataInlineVoid {T} {V : ArrayDataInlineVisitor T} {Cap}
           (arr : ArrayData.t) (func : option c_type -> Cap -> Cap)
           (fuel : nat) (c : Cap) : option Cap :=
  VisitVoid arr func fuel c.

(** *** [ArrayDataVisitor], lines 382-398 *)

(** The [visitor] argument: an object with the two methods [VisitNull] and
    [VisitValue]; [Cap] is the object's state. *)
Record Visitor (scalar Cap : Type) : Type :=
  { VisitNull : Cap -> Status * Cap;
    VisitValue : scalar -> Cap -> Status * Cap }.

Arguments VisitNull {scalar Cap} _ _.
Arguments VisitValue {scalar Cap} _ _ _.

Definition ArrayDataVisitor_Visit {T} {V : ArrayDataInlineVisitor T} {Cap}
           (arr : ArrayData.t) (visitor : Visitor c_type Cap)
           (fuel : nat) (c : Cap) : option (Status * Cap) :=
  let func := fun (v : option c_type) =>
                match v with
                | Some x => VisitValue visitor x
                | None => VisitNull visitor
                end in
  VisitStatus arr func fuel c.

(** *** The dispatchers *)

(** A visitor with one [Visit] overload for each type class; [X] is what is
    visited (a type, an array or a scalar), seen through the class the
    [checked_cast] names, and [Cap] the visitor's state. *)
Definition TypeVisitor (X Cap : Type) : Type :=
  TypeClass.t -> X -> Cap -> Status * Cap.

(** [TYPE_VISIT_INLINE], lines 82-84. *)
Definition TYPE_VISIT_INLINE {Cap} (type : DataType.t)
           (visitor : TypeVisitor DataType.t Cap) (c : Cap)
           (TYPE_CLASS : TypeClass.t) : Z * (Status * Cap) :=
  (type_id TYPE_CLASS, visitor TYPE_CLASS type c).

(** Lines 86-94. *)
Definition VisitTypeInline {Cap} (type : DataType.t)
           (visitor : TypeVisitor DataType.t Cap) (c : Cap) : Status * Cap :=
  switch (DataType.id type)
    (ARROW_GENERATE_FOR_ALL_TYPES (TYPE_VISIT_INLINE type visitor c))
    (Status.NotImplemented "Type not implemented", c).

(** [ARRAY_VISIT_INLINE], lines 98-102. *)
Definition ARRAY_VISIT_INLINE {Cap} (array : Array.t)
           (visitor : TypeVisitor Array.t Cap) (c : Cap)
           (TYPE_CLASS : TypeClass.t) : Z * (Status * Cap) :=
  (type_id TYPE_CLASS, visitor TYPE_CLASS array c).

(** Lines 104-112. *)
Definition VisitArrayInline {Cap} (array : Array.t)
           (visitor : TypeVisitor Array.t Cap) (c : Cap) : Status * Cap :=
  switch (Array.type_id array)
    (ARROW_GENERATE_FOR_ALL_TYPES (ARRAY_VISIT_INLINE array visitor c))
    (Status.NotImplemented "Type not implemented", c).

(** [SCALAR_VISIT_INLINE], lines 400-402. *)
Definition SCALAR_VISIT_INLINE {Cap} (scalar : Scalar.t)
           (visitor : TypeVisitor Scalar.t Cap) (c : Cap)
           (TYPE_CLASS : TypeClass.t) : Z * (Status * Cap) :=
  (type_id TYPE_CLASS, visitor TYPE_CLASS scalar c).

(** Lines 404-413. *)
Definition VisitScalarInline {Cap} (scalar : Scalar.t)
           (visitor : TypeVisitor Scalar.t Cap) (c : Cap) : Status * Cap :=
  switch (DataType.id (Scalar.type scalar))
    (ARROW_GENERATE_FOR_ALL_TYPES (SCALAR_VISIT_INLINE scalar visitor c))
    (Status.NotImplemented
       ("Scalar visitor for type not implemented "
          ++ DataType.ToString (Scalar.type scalar)),
     c).

(** *** What the traversals are compared with *)

(** The reference bit-by-bit scan: position [i] is valid when there is no
    bitmap, and otherwise when bit [offset + i] is set. *)
Definition is_valid (bitmap : option Buffer) (offset i : Z) : bool :=
  match bitmap with
  | None => true
  | Some _ => GetBit bitmap (offset + i)
  end.

(** The call the reference scan makes for position [i]. *)
Definition call_at {R Cap} (bitmap : option Buffer) (offset : Z)
           (visit_not_null : Z -> Cap -> R) (visit_null : Cap -> R)
           (i : Z) : Cap -> R :=
  if is_valid bitmap offset i then visit_not_null i else visit_null.

(** [0; 1; ...; length - 1] *)
Definition all_positions (length : Z) : list Z := positions (Z.to_nat length) 0.

(** What [record_not_null] and [record_null] write down for position [i]. *)
Definition expected_call (bitmap : option Buffer) (offset i : Z) : Call :=
  if is_valid bitmap offset i then CallNotNull i else CallNull.

(** Modelled from the spec: the contract of the run scanner
    ([internal::OptionalBitBlockCounter], whose header is not among the
    sources).  A run reported all set covers set bits only, a run reported
    all clear covers clear bits only, and without a bitmap the scanner
    behaves as if every bit is set. *)
Definition block_sound (bitmap : option Buffer) (offset position : Z)
           (block : BitBlockCount) : Prop :=
  match bitmap with
  | None => AllSet block = true
  | Some _ =>
      (AllSet block = true ->
       forall i, position <= i < position + block_length block ->
                 GetBit bitmap (offset + i) = true)
      /\ (NoneSet block = true ->
          forall i, position <= i < position + block_length block ->
                    GetBit bitmap (offset + i) = false)
  end.

(** Modelled from the spec: the runs cover [[0, length)] with no gaps or
    overlaps, until their lengths add up to [length].
    [Covers bitmap offset length position counter]: from [counter] on, the
    runs are sound, not empty, and their lengths add up to exactly what is
    left between [position] and [length]. *)
Inductive Covers (bitmap : option Buffer) (offset length : Z)
  : Z -> Counter -> Prop :=
| Covers_done : forall position counter,
    length <= position ->
    Covers bitmap offset length position counter
| Covers_step : forall position counter block counter',
    position < length ->
    NextBlock counter = (block, counter') ->
    0 < block_length block ->
    position + block_length block <= length ->
    block_sound bitmap offset position block ->
    Covers bitmap offset length (position + block_length block) counter' ->
    Covers bitmap offset length position counter.

Definition scanner_contract (bitmap : option Buffer) (offset length : Z) : Prop :=
  Covers bitmap offset length 0 (OptionalBitBlockCounter bitmap offset length).

(** The validity bitmap of an array, [arr.buffers[0]]. *)
Definition validity (arr : ArrayData.t) : option Buffer := ArrayData.buffer arr 0.

(** The contract for the traversal of one array, with enough fuel for it. *)
Definition array_scan_ok (arr : ArrayData.t) (fuel : nat) : Prop :=
  scanner_contract (validity arr) (ArrayData.offset arr) (ArrayData.length arr)
  /\ (Z.to_nat (ArrayData.length arr) <= fuel)%nat.

(** Entry [i] of the sliced offsets array of a binary array. *)
Definition offsets_at (arr : ArrayData.t) (i : Z) : Z :=
  match ArrayData.buffer arr 1 with
  | Some b => elem b (ArrayData.offset arr + i)
  | None => 0
  end.

(** The value at a position as the spec gives it for each layout,
    whatever the validity of the position. *)
Definition value_at_c_type (arr : ArrayData.t) (i : Z) : Z :=
  match ArrayData.buffer arr 1 with
  | Some b => elem b (ArrayData.offset arr + i)
  | None => 0
  end.

Definition value_at_boolean (arr : ArrayData.t) (i : Z) : bool :=
  GetBit (ArrayData.buffer arr 1) (ArrayData.offset arr + i).

Definition value_at_binary (arr : ArrayData.t) (i : Z) : string_view :=
  {| sv_data := ptr_add (binary_data arr) (offsets_at arr i);
     sv_size := to_size_t (offsets_at arr (i + 1) - offsets_at arr i) |}.

Definition value_at_fixed_size_binary (arr : ArrayData.t) (i : Z) : string_view :=
  let byte_width := DataType.byte_width (ArrayData.type arr) in
  {| sv_data :=
       ptr_add (ArrayData.GetValues_absolute arr 1 (ArrayData.offset arr * byte_width))
               (i * byte_width);
     sv_size := to_size_t byte_width |}.

(** What the callback of a value traversal receives for position [i]. *)
Definition optional_at {A} (arr : ArrayData.t) (value_at : ArrayData.t -> Z -> A)
           (i : Z) : option A :=
  if is_valid (validity arr) (ArrayData.offset arr) i
  then Some (value_at arr i) else None.

(** The dual-method traversal in the spec's words: for each position in
    order, [VisitValue] on the value of a valid position and [VisitNull] on
    a null one, stopping at the first failure. *)
Definition dual_method_scan {A Cap} (arr : ArrayData.t)
           (value_at : ArrayData.t -> Z -> A) (visitor : Visitor A Cap)
           (c : Cap) : Status * Cap :=
  run_status
    (map (fun i =>
            if is_valid (validity arr) (ArrayData.offset arr) i
            then VisitValue visitor (value_at arr i)
            else VisitNull visitor)
         (all_positions (ArrayData.length arr)))
    c.

(** The reference scans of the spec, which test bit [offset + i] for each
    [i] from 0 to [length - 1] on its own. *)
Definition bit_by_bit_scan {Cap} (bits : Buffer) (offset length : Z)
           (visit_not_null : Z -> Cap -> Status * Cap)
           (visit_null : Cap -> Status * Cap) (c : Cap) : Status * Cap :=
  run_status
    (map (fun i => if GetBit (Some bits) (offset + i)
                   then visit_not_null i else visit_null)
         (all_positions length)) c.

Definition bit_by_bit_scan_void {Cap} (bits : Buffer) (offset length : Z)
           (visit_not_null : Z -> Cap -> Cap) (visit_null : Cap -> Cap)
           (c : Cap) : Cap :=
  run_void
    (map (fun i => if GetBit (Some bits) (offset + i)
                   then visit_not_null i else visit_null)
         (all_positions length)) c.

Definition bit_by_bit_validity {Cap} (bits : Buffer) (offset length : Z)
           (func : bool -> Cap -> Status * Cap) (c : Cap) : Status * Cap :=
  run_status
    (map (fun i => func (GetBit (Some bits) (offset + i))) (all_positions length)) c.

Definition bit_by_bit_validity_void {Cap} (bits : Buffer) (offset length : Z)
           (func : bool -> Cap -> Cap) (c : Cap) : Cap :=
  run_void
    (map (fun i => func (GetBit (Some bits) (offset + i))) (all_positions length)) c.

(** The callbacks of a status traversal, each run next to a log of the
    calls made. *)
Definition traced_not_null {Cap} (visit_not_null : Z -> Cap -> Status * Cap)
           (position : Z) : Cap * list Call -> Status * (Cap * list Call) :=
  traced (visit_not_null position) (CallNotNull position).

Definition traced_null {Cap} (visit_null : Cap -> Status * Cap)
  : Cap * list Call -> Status * (Cap * list Call) :=
  traced visit_null CallNull.

(** A specialisation together with the value it reads at a position: both of
    its traversals call [func], position after position, on the optional
    value of the position. *)
Class ArrayDataInlineVisitorSpec (T : Category) {V : ArrayDataInlineVisitor T}
  : Type :=
  { value_at : ArrayData.t -> Z -> c_type;
    VisitStatus_scan :
      forall {Cap} (arr : ArrayData.t) (func : option c_type -> Cap -> Status * Cap)
             (fuel : nat) (c : Cap),
        array_scan_ok arr fuel ->
        VisitStatus arr func fuel c
        = Some (run_status
                  (map (fun i => func (optional_at arr value_at i))
                       (all_positions (ArrayData.length arr))) c);
    VisitVoid_scan :
      forall {Cap} (arr : ArrayData.t) (func : option c_type -> Cap -> Cap)
             (fuel : nat) (c : Cap),
        array_scan_ok arr fuel ->
        VisitVoid arr func fuel c
        = Some (run_void
                  (map (fun i => func (optional_at arr value_at i))
                       (all_positions (ArrayData.length arr))) c) }.

(** *** Callbacks and measures used to state further properties *)

(** A [void] callback seen as a status callback that never fails. *)
Definition infallible {Cap} (call : Cap -> Cap) : Cap -> Status * Cap :=
  fun c => (Status.OK, call c).

(** A status callback on values, run next to a log of the values it is
    called with. *)
Definition traced_value {A Cap} (func : A -> Cap -> Status * Cap) (v : A)
           (cl : Cap * list A) : Status * (Cap * list A) :=
  let (st, c') := func v (fst cl) in (st, (c', snd cl ++ [v])).

(** A validity callback that counts the valid and the null positions it is
    called for. *)
Definition count_validity (valid : bool) (counts : Z * Z) : Z * Z :=
  if valid then (fst counts + 1, snd counts) else (fst counts, snd counts + 1).

(** The number of valid positions among [0 .. length - 1]. *)
Definition count_valid (bitmap : option Buffer) (offset length : Z) : Z :=
  Z.of_nat (List.length (filter (is_valid bitmap offset) (all_positions length))).

(** Two arrays over the same type and the same buffers: slices of one
    another. *)
Definition same_storage (a b : ArrayData.t) : Prop :=
  ArrayData.type a = ArrayData.type b /\ ArrayData.buffers a = ArrayData.buffers b.

(** ** Facts about positions and reference scans *)

Lemma positions_length (n : nat) (start : Z) :
  List.length (positions n start) = n.
Proof.
  revert start; induction n as [|n IH]; intros start; simpl; [reflexivity|].
  now rewrite IH.
Qed.

Lemma positions_app (n m : nat) (start : Z) :
  positions (n + m) start = positions n start ++ positions m (start + Z.of_nat n).
Proof.
  revert start; induction n as [|n IH]; intros start.
  - simpl. now rewrite Z.add_0_r.
  - cbn [positions Nat.add app]. rewrite IH. do 3 f_equal. lia.
Qed.

Lemma positions_In (n : nat) (start i : Z) :
  In i (positions n start) -> start <= i < start + Z.of_nat n.
Proof.
  revert start; induction n as [|n IH]; intros start; simpl; [tauto|].
  intros [<- | Hin]; [lia|]. apply IH in Hin. lia.
Qed.

Lemma positions_nth (n : nat) (start d : Z) (k : nat) :
  (k < n)%nat -> nth k (positions n start) d = start + Z.of_nat k.
Proof.
  revert start k; induction n as [|n IH]; intros start k Hk; [lia|].
  destruct k as [|k]; simpl positions; cbn [nth]; [lia|].
  rewrite IH by lia. lia.
Qed.

Lemma positions_shift {B} (f : Z -> B) (n : nat) (start k : Z) :
  map f (positions n (start + k)) = map (fun i => f (i + k)) (positions n start).
Proof.
  revert start; induction n as [|n IH]; intros start; simpl; [reflexivity|].
  f_equal. replace (start + k + 1) with (start + 1 + k) by lia. apply IH.
Qed.

(** The positions from [position] to [length] split at the end of a run. *)
Lemma positions_split {position length run : Z} :
  0 < run -> position + run <= length ->
  positions (Z.to_nat (length - position)) position
  = positions (Z.to_nat run) position
      ++ positions (Z.to_nat (length - (position + run))) (position + run).
Proof.
  intros Hrun Hfit.
  replace (Z.to_nat (length - position))
    with (Z.to_nat run + Z.to_nat (length - (position + run)))%nat by lia.
  rewrite positions_app. do 2 f_equal. lia.
Qed.

Lemma map_positions_ext {B} (f g : Z -> B) (n : nat) (start : Z) :
  (forall i, start <= i < start + Z.of_nat n -> f i = g i) ->
  map f (positions n start) = map g (positions n start).
Proof.
  intros Hfg. apply map_ext_in. intros i Hin. apply Hfg.
  now apply positions_In.
Qed.

Lemma run_status_app {Cap} (calls1 calls2 : list (Cap -> Status * Cap)) (c : Cap) :
  run_status (calls1 ++ calls2) c
  = let (st, c') := run_status calls1 c in
    if Status.ok st then run_status calls2 c' else (st, c').
Proof.
  revert c; induction calls1 as [|call calls1 IH]; intros c; simpl.
  - reflexivity.
  - destruct (call c) as [st c1]. destruct (Status.ok st) eqn:Hok.
    + apply IH.
    + now rewrite Hok.
Qed.

Lemma run_void_app {Cap} (calls1 calls2 : list (Cap -> Cap)) (c : Cap) :
  run_void (calls1 ++ calls2) c = run_void calls2 (run_void calls1 c).
Proof.
  revert c; induction calls1 as [|call calls1 IH]; intros c; simpl; auto.
Qed.

Lemma run_status_ok_app {Cap} {calls1 : list (Cap -> Status * Cap)}
      (calls2 : list (Cap -> Status * Cap)) {c c1 : Cap} :
  run_status calls1 c = (Status.OK, c1) ->
  run_status (calls1 ++ calls2) c = run_status calls2 c1.
Proof. intros H. now rewrite run_status_app, H. Qed.

(** A counted loop makes the calls of its positions, in order. *)
Lemma for_status_run {Cap} {n : nat} {body : Z -> Cap -> Status * Cap}
      {position : Z} {c : Cap} {st : Status} {c1 : Cap} :
  run_status (map body (positions n position)) c = (st, c1) ->
  exists position',
    for_status n body position c = (st, (position', c1))
    /\ (Status.ok st = true -> position' = position + Z.of_nat n).
Proof.
  revert position c; induction n as [|n IH]; intros position c; simpl.
  - intros [= <- <-]. exists position. split; [reflexivity | intros _; lia].
  - destruct (body position c) as [st0 c0]. destruct (Status.ok st0) eqn:Hok.
    + intros Hrun. destruct (IH _ _ Hrun) as (p & Hfor & Hp).
      exists p. split; [exact Hfor | intros H; rewrite (Hp H); lia].
    + intros [= <- <-]. exists position. split; [reflexivity|].
      intros H; congruence.
Qed.

Lemma for_void_run {Cap} (n : nat) (body : Z -> Cap -> Cap) (position : Z) (c : Cap) :
  for_void n body position c
  = (position + Z.of_nat n, run_void (map body (positions n position)) c).
Proof.
  revert position c; induction n as [|n IH]; intros position c; simpl.
  - now rewrite Z.add_0_r.
  - rewrite IH. f_equal. lia.
Qed.

(** ** The block loops against the reference scan *)

Lemma bitmap_of_same (bitmap_buf : option Buffer) : bitmap_of bitmap_buf = bitmap_buf.
Proof. now destruct bitmap_buf. Qed.

(** Inside a sound run the branch taken for the run and the bit-by-bit
    decision agree at every position. *)
Lemma block_calls {R Cap} {bitmap : option Buffer} {offset position : Z}
      (visit_not_null : Z -> Cap -> R) (visit_null : Cap -> R)
      {block : BitBlockCount} :
  block_sound bitmap offset position block ->
  let ps := positions (Z.to_nat (block_length block)) position in
  let reference := map (call_at bitmap offset visit_not_null visit_null) ps in
  (AllSet block = true -> map visit_not_null ps = reference)
  /\ (AllSet block = false -> NoneSet block = true ->
      map (fun _ => visit_null) ps = reference)
  /\ (AllSet block = false -> NoneSet block = false ->
      map (fun position c =>
             if GetBit bitmap (offset + position) then visit_not_null position c
             else visit_null c) ps = reference).
Proof.
  intros Hsound ps reference. subst ps reference. unfold call_at, is_valid.
  destruct bitmap as [bits|]; simpl in Hsound.
  - destruct Hsound as [Hset Hclear]. split; [|split].
    + intros Hall. apply map_positions_ext. intros i Hi.
      rewrite (Hset Hall i) by lia. reflexivity.
    + intros _ Hnone. apply map_positions_ext. intros i Hi.
      rewrite (Hclear Hnone i) by lia. reflexivity.
    + intros _ _. apply map_positions_ext. intros i _.
      now destruct (GetBit (Some bits) (offset + i)).
  - split; [intros _; reflexivity | split; intros; congruence].
Qed.

Lemma VisitBitBlocks_block_run {Cap} {bitmap : option Buffer} {offset position : Z}
      {visit_not_null : Z -> Cap -> Status * Cap} {visit_null : Cap -> Status * Cap}
      {block : BitBlockCount} {c : Cap} {st : Status} {c1 : Cap} :
  block_sound bitmap offset position block ->
  0 < block_length block ->
  run_status
    (map (call_at bitmap offset visit_not_null visit_null)
         (positions (Z.to_nat (block_length block)) position)) c = (st, c1) ->
  exists position',
    VisitBitBlocks_block bitmap offset visit_not_null visit_null block position c
    = (st, (position', c1))
    /\ (Status.ok st = true -> position' = position + block_length block).
Proof.
  intros Hsound Hpos Hrun.
  destruct (block_calls visit_not_null visit_null Hsound) as (Hall & Hnone & Hmixed).
  unfold VisitBitBlocks_block.
  replace (position + block_length block)
    with (position + Z.of_nat (Z.to_nat (block_length block))) by lia.
  destruct (AllSet block); [|destruct (NoneSet block)]; apply for_status_run.
  - now rewrite Hall.
  - now rewrite Hnone.
  - now rewrite Hmixed.
Qed.

Lemma VisitBitBlocksVoid_block_run {Cap} {bitmap : option Buffer} {offset position : Z}
      (visit_not_null : Z -> Cap -> Cap) (visit_null : Cap -> Cap)
      {block : BitBlockCount} (c : Cap) :
  block_sound bitmap offset position block ->
  0 < block_length block ->
  VisitBitBlocksVoid_block bitmap offset visit_not_null visit_null block position c
  = (position + block_length block,
     run_void
       (map (call_at bitmap offset visit_not_null visit_null)
            (positions (Z.to_nat (block_length block)) position)) c).
Proof.
  intros Hsound Hpos.
  destruct (block_calls visit_not_null visit_null Hsound) as (Hall & Hnone & Hmixed).
  unfold VisitBitBlocksVoid_block.
  replace (position + block_length block)
    with (position + Z.of_nat (Z.to_nat (block_length block))) by lia.
  destruct (AllSet block); [|destruct (NoneSet block)]; rewrite for_void_run.
  - now rewrite Hall.
  - now rewrite Hnone.
  - now rewrite Hmixed.
Qed.

(** The loop of [VisitBitBlocks] from any position the counter has reached:
    with fuel for the positions left it returns what the reference scan of
    those positions returns. *)
Lemma VisitBitBlocks_while_run {Cap} {bitmap : option Buffer} {offset length : Z}
      (visit_not_null : Z -> Cap -> Status * Cap) (visit_null : Cap -> Status * Cap)
      {position : Z} {counter : Counter} :
  Covers bitmap offset length position counter ->
  forall (fuel : nat) (c : Cap),
    (Z.to_nat (length - position) <= fuel)%nat ->
    VisitBitBlocks_while bitmap offset length visit_not_null visit_null
      fuel counter position c
    = Some (run_status
              (map (call_at bitmap offset visit_not_null visit_null)
                   (positions (Z.to_nat (length - position)) position)) c).
Proof.
  induction 1 as [position counter Hle
                 |position counter block counter' Hlt Hnext Hpos Hfit Hsound _ IH];
    intros fuel c Hfuel.
  - replace (Z.to_nat (length - position)) with O by lia.
    destruct fuel; simpl; now rewrite (proj2 (Z.ltb_ge _ _) Hle).
  - destruct fuel as [|fuel]; [lia|].
    simpl. rewrite (proj2 (Z.ltb_lt _ _) Hlt), Hnext.
    rewrite (positions_split Hpos Hfit), map_app, run_status_app.
    destruct (run_status _ c) as [st c1] eqn:Hrun.
    destruct (VisitBitBlocks_block_run Hsound Hpos Hrun) as (p & -> & Hp).
    destruct (Status.ok st) eqn:Hok; [|reflexivity].
    rewrite (Hp eq_refl). apply IH. lia.
Qed.

Lemma VisitBitBlocksVoid_while_run {Cap} {bitmap : option Buffer} {offset length : Z}
      (visit_not_null : Z -> Cap -> Cap) (visit_null : Cap -> Cap)
      {position : Z} {counter : Counter} :
  Covers bitmap offset length position counter ->
  forall (fuel : nat) (c : Cap),
    (Z.to_nat (length - position) <= fuel)%nat ->
    VisitBitBlocksVoid_while bitmap offset length visit_not_null visit_null
      fuel counter position c
    = Some (run_void
              (map (call_at bitmap offset visit_not_null visit_null)
                   (positions (Z.to_nat (length - position)) position)) c).
Proof.
  induction 1 as [position counter Hle
                 |position counter block counter' Hlt Hnext Hpos Hfit Hsound _ IH];
    intros fuel c Hfuel.
  - replace (Z.to_nat (length - position)) with O by lia.
    destruct fuel; simpl; now rewrite (proj2 (Z.ltb_ge _ _) Hle).
  - destruct fuel as [|fuel]; [lia|].
    simpl. rewrite (proj2 (Z.ltb_lt _ _) Hlt), Hnext.
    rewrite (positions_split Hpos Hfit), map_app, run_void_app.
    rewrite (VisitBitBlocksVoid_block_run _ _ _ Hsound Hpos).
    apply IH. lia.
Qed.

(** [VisitBitBlocks] is the reference scan of all positions. *)
Lemma VisitBitBlocks_run {Cap} (bitmap_buf : option Buffer) (offset length : Z)
      (visit_not_null : Z -> Cap -> Status * Cap) (visit_null : Cap -> Status * Cap)
      (fuel : nat) (c : Cap) :
  scanner_contract bitmap_buf offset length ->
  (Z.to_nat length <= fuel)%nat ->
  VisitBitBlocks bitmap_buf offset length visit_not_null visit_null fuel c
  = Some (run_status
            (map (call_at bitmap_buf offset visit_not_null visit_null)
                 (all_positions length)) c).
Proof.
  intros Hcontract Hfuel. unfold VisitBitBlocks, all_positions.
  rewrite bitmap_of_same.
  rewrite (VisitBitBlocks_while_run _ _ Hcontract) by (rewrite Z.sub_0_r; exact Hfuel).
  now rewrite Z.sub_0_r.
Qed.

Lemma VisitBitBlocksVoid_run {Cap} (bitmap_buf : option Buffer) (offset length : Z)
      (visit_not_null : Z -> Cap -> Cap) (visit_null : Cap -> Cap)
      (fuel : nat) (c : Cap) :
  scanner_contract bitmap_buf offset length ->
  (Z.to_nat length <= fuel)%nat ->
  VisitBitBlocksVoid bitmap_buf offset length visit_not_null visit_null fuel c
  = Some (run_void
            (map (call_at bitmap_buf offset visit_not_null visit_null)
                 (all_positions length)) c).
Proof.
  intros Hcontract Hfuel. unfold VisitBitBlocksVoid, all_positions.
  rewrite bitmap_of_same.
  rewrite (VisitBitBlocksVoid_while_run _ _ Hcontract) by (rewrite Z.sub_0_r; exact Hfuel).
  now rewrite Z.sub_0_r.
Qed.

(** ** The null-bitmap loops against the reference scan *)

(** The validity the reference scan passes for position [i]. *)
Lemma nullbitmap_block_calls {R Cap} {valid_bits : option Buffer}
      {valid_bits_offset position : Z} (func : bool -> Cap -> R)
      {block : BitBlockCount} :
  block_sound valid_bits valid_bits_offset position block ->
  let n := Z.to_nat (block_length block) in
  let reference :=
    map (fun i => func (is_valid valid_bits valid_bits_offset i))
        (positions n position) in
  (AllSet block = true -> map (fun _ => func true) (positions n 0) = reference)
  /\ (AllSet block = false -> NoneSet block = true ->
      map (fun _ => func false) (positions n 0) = reference)
  /\ (AllSet block = false -> NoneSet block = false ->
      map (fun i => func (GetBit valid_bits (valid_bits_offset + position + i)))
          (positions n 0) = reference).
Proof.
  intros Hsound n reference. subst reference.
  assert (Hshift :
            map (fun i => func (is_valid valid_bits valid_bits_offset i))
                (positions n position)
            = map (fun i => func (is_valid valid_bits valid_bits_offset (i + position)))
                  (positions n 0)).
  { rewrite <- (positions_shift
                  (fun i => func (is_valid valid_bits valid_bits_offset i))
                  n 0 position).
    now rewrite Z.add_0_l. }
  rewrite Hshift. clear Hshift. unfold is_valid.
  destruct valid_bits as [bits|]; simpl in Hsound.
  - destruct Hsound as [Hset Hclear]. split; [|split].
    + intros Hall. apply map_positions_ext. intros i Hi.
      rewrite (Hset Hall (i + position)) by lia. reflexivity.
    + intros _ Hnone. apply map_positions_ext. intros i Hi.
      rewrite (Hclear Hnone (i + position)) by lia. reflexivity.
    + intros _ _. apply map_positions_ext. intros i _.
      do 2 f_equal. lia.
  - split; [intros _; reflexivity | split; intros; congruence].
Qed.

Lemma VisitNullBitmapInline_block_run {Cap} {valid_bits : option Buffer}
      {valid_bits_offset position : Z} {func : bool -> Cap -> Status * Cap}
      {block : BitBlockCount} {c : Cap} {st : Status} {c1 : Cap} :
  block_sound valid_bits valid_bits_offset position block ->
  run_status
    (map (fun i => func (is_valid valid_bits valid_bits_offset i))
         (positions (Z.to_nat (block_length block)) position)) c = (st, c1) ->
  exists i',
    VisitNullBitmapInline_block valid_bits func block
      (valid_bits_offset + position) c = (st, (i', c1)).
Proof.
  intros Hsound Hrun.
  destruct (nullbitmap_block_calls func Hsound) as (Hall & Hnone & Hmixed).
  unfold VisitNullBitmapInline_block.
  destruct (AllSet block); [|destruct (NoneSet block)].
  - rewrite <- Hall in Hrun by reflexivity.
    destruct (for_status_run Hrun) as (i' & -> & _). now exists i'.
  - rewrite <- Hnone in Hrun by reflexivity.
    destruct (for_status_run Hrun) as (i' & -> & _). now exists i'.
  - rewrite <- Hmixed in Hrun by reflexivity.
    destruct (for_status_run Hrun) as (i' & -> & _). now exists i'.
Qed.

Lemma VisitNullBitmapInlineVoid_block_run {Cap} {valid_bits : option Buffer}
      {valid_bits_offset position : Z} (func : bool -> Cap -> Cap)
      {block : BitBlockCount} (c : Cap) :
  block_sound valid_bits valid_bits_offset position block ->
  snd (VisitNullBitmapInlineVoid_block valid_bits func block
         (valid_bits_offset + position) c)
  = run_void
      (map (fun i => func (is_valid valid_bits valid_bits_offset i))
           (positions (Z.to_nat (block_length block)) position)) c.
Proof.
  intros Hsound.
  destruct (nullbitmap_block_calls func Hsound) as (Hall & Hnone & Hmixed).
  unfold VisitNullBitmapInlineVoid_block.
  destruct (AllSet block); [|destruct (NoneSet block)]; rewrite for_void_run; simpl.
  - now rewrite Hall.
  - now rewrite Hnone.
  - now rewrite Hmixed.
Qed.

Lemma VisitNullBitmapInline_while_run {Cap} {valid_bits : option Buffer}
      {valid_bits_offset num_values : Z} (func : bool -> Cap -> Status * Cap)
      {position : Z} {counter : Counter} :
  Covers valid_bits valid_bits_offset num_values position counter ->
  forall (fuel : nat) (c : Cap),
    (Z.to_nat (num_values - position) <= fuel)%nat ->
    VisitNullBitmapInline_while valid_bits num_values func
      fuel counter position (valid_bits_offset + position) c
    = Some (run_status
              (map (fun i => func (is_valid valid_bits valid_bits_offset i))
                   (positions (Z.to_nat (num_values - position)) position)) c).
Proof.
  induction 1 as [position counter Hle
                 |position counter block counter' Hlt Hnext Hpos Hfit Hsound _ IH];
    intros fuel c Hfuel.
  - replace (Z.to_nat (num_values - position)) with O by lia.
    destruct fuel; simpl; now rewrite (proj2 (Z.ltb_ge _ _) Hle).
  - destruct fuel as [|fuel]; [lia|].
    simpl. rewrite (proj2 (Z.ltb_lt _ _) Hlt), Hnext.
    rewrite (positions_split Hpos Hfit), map_app, run_status_app.
    destruct (run_status _ c) as [st c1] eqn:Hrun.
    destruct (VisitNullBitmapInline_block_run Hsound Hrun) as (i' & ->).
    destruct (Status.ok st) eqn:Hok; [|reflexivity].
    rewrite <- Z.add_assoc. apply IH. lia.
Qed.

Lemma VisitNullBitmapInlineVoid_while_run {Cap} {valid_bits : option Buffer}
      {valid_bits_offset num_values : Z} (func : bool -> Cap -> Cap)
      {position : Z} {counter : Counter} :
  Covers valid_bits valid_bits_offset num_values position counter ->
  forall (fuel : nat) (c : Cap),
    (Z.to_nat (num_values - position) <= fuel)%nat ->
    VisitNullBitmapInlineVoid_while valid_bits num_values func
      fuel counter position (valid_bits_offset + position) c
    = Some (run_void
              (map (fun i => func (is_valid valid_bits valid_bits_offset i))
                   (positions (Z.to_nat (num_values - position)) position)) c).
Proof.
  induction 1 as [position counter Hle
                 |position counter block counter' Hlt Hnext Hpos Hfit Hsound _ IH];
    intros fuel c Hfuel.
  - replace (Z.to_nat (num_values - position)) with O by lia.
    destruct fuel; simpl; now rewrite (proj2 (Z.ltb_ge _ _) Hle).
  - destruct fuel as [|fuel]; [lia|].
    simpl. rewrite (proj2 (Z.ltb_lt _ _) Hlt), Hnext.
    rewrite (positions_split Hpos Hfit), map_app, run_void_app.
    rewrite <- (VisitNullBitmapInlineVoid_block_run func c Hsound).
    destruct (VisitNullBitmapInlineVoid_block _ _ _ _ _) as [i' c1]. simpl.
    rewrite <- Z.add_assoc. apply IH. lia.
Qed.

(** [VisitNullBitmapInline] passes the reference validity of every position,
    whatever [null_count] it is given. *)
Lemma VisitNullBitmapInline_run {Cap} (valid_bits : option Buffer)
      (valid_bits_offset num_values null_count : Z)
      (func : bool -> Cap -> Status * Cap) (fuel : nat) (c : Cap) :
  scanner_contract valid_bits valid_bits_offset num_values ->
  (Z.to_nat num_values <= fuel)%nat ->
  VisitNullBitmapInline valid_bits valid_bits_offset num_values null_count func fuel c
  = Some (run_status
            (map (fun i => func (is_valid valid_bits valid_bits_offset i))
                 (all_positions num_values)) c).
Proof.
  intros Hcontract Hfuel. unfold VisitNullBitmapInline, all_positions.
  replace valid_bits_offset with (valid_bits_offset + 0) at 2 by lia.
  rewrite (VisitNullBitmapInline_while_run _ Hcontract)
    by (rewrite Z.sub_0_r; exact Hfuel).
  now rewrite Z.sub_0_r.
Qed.

Lemma VisitNullBitmapInlineVoid_run {Cap} (valid_bits : option Buffer)
      (valid_bits_offset num_values null_count : Z)
      (func : bool -> Cap -> Cap) (fuel : nat) (c : Cap) :
  scanner_contract valid_bits valid_bits_offset num_values ->
  (Z.to_nat num_values <= fuel)%nat ->
  VisitNullBitmapInlineVoid valid_bits valid_bits_offset num_values null_count
    func fuel c
  = Some (run_void
            (map (fun i => func (is_valid valid_bits valid_bits_offset i))
                 (all_positions num_values)) c).
Proof.
  intros Hcontract Hfuel. unfold VisitNullBitmapInlineVoid, all_positions.
  replace valid_bits_offset with (valid_bits_offset + 0) at 2 by lia.
  rewrite (VisitNullBitmapInlineVoid_while_run _ Hcontract)
    by (rewrite Z.sub_0_r; exact Hfuel).
  now rewrite Z.sub_0_r.
Qed.

(** ** The four specialisations against the reference scan *)

Lemma load_GetValues (arr : ArrayData.t) (k : nat) (i : Z) :
  ArrayData.load arr (ptr_add (ArrayData.GetValues arr k) i)
  = match ArrayData.buffer arr k with
    | Some b => elem b (ArrayData.offset arr + i)
    | None => 0
    end.
Proof.
  unfold ArrayData.GetValues, ArrayData.GetValues_absolute, ArrayData.load.
  destruct (ArrayData.buffer arr k) as [b|] eqn:Hb; simpl; [|reflexivity].
  now rewrite Hb.
Qed.

Lemma binary_value_at (arr : ArrayData.t) (i : Z) :
  binary_value arr (ArrayData.GetValues arr 1) (binary_data arr) i
  = value_at_binary arr i.
Proof.
  unfold binary_value, value_at_binary, offsets_at, make_string_view.
  now rewrite !load_GetValues.
Qed.

Lemma ptr_add_add (p : Pointer) (n m : Z) :
  ptr_add (ptr_add p n) m = ptr_add p (n + m).
Proof. unfold ptr_add; simpl. f_equal. lia. Qed.

(** Both traversals of a value visitor call through [call_at]; this is the
    call in terms of the optional value. *)
Lemma call_at_optional {A R Cap} (arr : ArrayData.t)
      (value_at : ArrayData.t -> Z -> A) (func : option A -> Cap -> R) (i : Z) :
  call_at (validity arr) (ArrayData.offset arr)
          (fun i => func (Some (value_at arr i))) (func None) i
  = func (optional_at arr value_at i).
Proof. unfold call_at, optional_at. now destruct (is_valid _ _ i). Qed.

Lemma VisitStatus_c_type_scan {Cap} (arr : ArrayData.t)
      (func : option Z -> Cap -> Status * Cap) (fuel : nat) (c : Cap) :
  array_scan_ok arr fuel ->
  VisitStatus_c_type arr func fuel c
  = Some (run_status
            (map (fun i => func (optional_at arr value_at_c_type i))
                 (all_positions (ArrayData.length arr))) c).
Proof.
  intros [Hcontract Hfuel]. unfold VisitStatus_c_type.
  rewrite (VisitBitBlocks_run _ _ _ _ _ _ _ Hcontract Hfuel). do 2 f_equal.
  apply map_ext. intros i. rewrite <- call_at_optional.
  unfold call_at, value_at_c_type. now rewrite load_GetValues.
Qed.

Lemma VisitVoid_c_type_scan {Cap} (arr : ArrayData.t)
      (func : option Z -> Cap -> Cap) (fuel : nat) (c : Cap) :
  array_scan_ok arr fuel ->
  VisitVoid_c_type arr func fuel c
  = Some (run_void
            (map (fun i => func (optional_at arr value_at_c_type i))
                 (all_positions (ArrayData.length arr))) c).
Proof.
  intros [Hcontract Hfuel]. unfold VisitVoid_c_type.
  rewrite (VisitBitBlocksVoid_run _ _ _ _ _ _ _ Hcontract Hfuel). do 2 f_equal.
  apply map_ext. intros i. rewrite <- call_at_optional.
  unfold call_at, value_at_c_type. now rewrite load_GetValues.
Qed.

Lemma VisitStatus_boolean_scan {Cap} (arr : ArrayData.t)
      (func : option bool -> Cap -> Status * Cap) (fuel : nat) (c : Cap) :
  array_scan_ok arr fuel ->
  VisitStatus_boolean arr func fuel c
  = Some (run_status
            (map (fun i => func (optional_at arr value_at_boolean i))
                 (all_positions (ArrayData.length arr))) c).
Proof.
  intros [Hcontract Hfuel]. unfold VisitStatus_boolean.
  rewrite (VisitBitBlocks_run _ _ _ _ _ _ _ Hcontract Hfuel). do 2 f_equal.
  apply map_ext. intros i. now rewrite <- call_at_optional.
Qed.

Lemma VisitVoid_boolean_scan {Cap} (arr : ArrayData.t)
      (func : option bool -> Cap -> Cap) (fuel : nat) (c : Cap) :
  array_scan_ok arr fuel ->
  VisitVoid_boolean arr func fuel c
  = Some (run_void
            (map (fun i => func (optional_at arr value_at_boolean i))
                 (all_positions (ArrayData.length arr))) c).
Proof.
  intros [Hcontract Hfuel]. unfold VisitVoid_boolean.
  rewrite (VisitBitBlocksVoid_run _ _ _ _ _ _ _ Hcontract Hfuel). do 2 f_equal.
  apply map_ext. intros i. now rewrite <- call_at_optional.
Qed.

Lemma VisitStatus_binary_scan {Cap} (arr : ArrayData.t)
      (func : option string_view -> Cap -> Status * Cap) (fuel : nat) (c : Cap) :
  array_scan_ok arr fuel ->
  VisitStatus_binary arr func fuel c
  = Some (run_status
            (map (fun i => func (optional_at arr value_at_binary i))
                 (all_positions (ArrayData.length arr))) c).
Proof.
  intros [Hcontract Hfuel]. unfold VisitStatus_binary.
  rewrite (VisitBitBlocks_run _ _ _ _ _ _ _ Hcontract Hfuel). do 2 f_equal.
  apply map_ext. intros i. rewrite <- call_at_optional.
  unfold call_at. now rewrite binary_value_at.
Qed.

Lemma VisitVoid_binary_scan {Cap} (arr : ArrayData.t)
      (func : option string_view -> Cap -> Cap) (fuel : nat) (c : Cap) :
  array_scan_ok arr fuel ->
  VisitVoid_binary arr func fuel c
  = Some (run_void
            (map (fun i => func (optional_at arr value_at_binary i))
                 (all_positions (ArrayData.length arr))) c).
Proof.
  intros [Hcontract Hfuel]. unfold VisitVoid_binary.
  rewrite (VisitBitBlocksVoid_run _ _ _ _ _ _ _ Hcontract Hfuel). do 2 f_equal.
  apply map_ext. intros i. rewrite <- call_at_optional.
  unfold call_at. now rewrite binary_value_at.
Qed.

Lemma ptr_add_0 (p : Pointer) : ptr_add p 0 = p.
Proof. destruct p as [b i]. unfold ptr_add; simpl. f_equal. lia. Qed.

(** The fixed-size binary lambdas keep their pointer at the record of the
    position they are called for, whatever the calls before were. *)
Lemma fixed_size_binary_calls_status {Cap} (arr : ArrayData.t)
      (func : option string_view -> Cap -> Status * Cap) (n : nat) :
  let byte_width := DataType.byte_width (ArrayData.type arr) in
  let data := ArrayData.GetValues_absolute arr 1 (ArrayData.offset arr * byte_width) in
  forall (start : Z) (c : Cap) (st : Status) (c1 : Cap),
    run_status
      (map (fun i => func (optional_at arr value_at_fixed_size_binary i))
           (positions n start)) c = (st, c1) ->
    exists data',
      run_status
        (map (call_at (validity arr) (ArrayData.offset arr)
                (fun (i : Z) '(data, c) =>
                   let value := make_string_view data byte_width in
                   let data := ptr_add data byte_width in
                   let (st, c') := func (Some value) c in (st, (data, c')))
                (fun '(data, c) =>
                   let data := ptr_add data byte_width in
                   let (st, c') := func None c in (st, (data, c'))))
             (positions n start))
        (ptr_add data (start * byte_width), c)
      = (st, (data', c1)).
Proof.
  intros byte_width data. induction n as [|n IH]; intros start c st c1; simpl.
  - intros [= <- <-]. eexists; reflexivity.
  - unfold call_at at 1, optional_at at 1.
    assert (Hnext : ptr_add (ptr_add data (start * byte_width)) byte_width
                    = ptr_add data ((start + 1) * byte_width))
      by (rewrite ptr_add_add; f_equal; lia).
    destruct (is_valid (validity arr) (ArrayData.offset arr) start);
      cbn beta iota zeta; rewrite Hnext.
    + change (make_string_view (ptr_add data (start * byte_width)) byte_width)
        with (value_at_fixed_size_binary arr start).
      destruct (func (Some (value_at_fixed_size_binary arr start)) c) as [st0 c0].
      destruct (Status.ok st0); [apply IH|].
      intros [= <- <-]; eexists; reflexivity.
    + destruct (func None c) as [st0 c0].
      destruct (Status.ok st0); [apply IH|].
      intros [= <- <-]; eexists; reflexivity.
Qed.

Lemma fixed_size_binary_calls_void {Cap} (arr : ArrayData.t)
      (func : option string_view -> Cap -> Cap) (n : nat) :
  let byte_width := DataType.byte_width (ArrayData.type arr) in
  let data := ArrayData.GetValues_absolute arr 1 (ArrayData.offset arr * byte_width) in
  forall (start : Z) (c : Cap),
    snd (run_void
           (map (call_at (validity arr) (ArrayData.offset arr)
                   (fun (i : Z) '(data, c) =>
                      let value := make_string_view data byte_width in
                      let data := ptr_add data byte_width in
                      (data, func (Some value) c))
                   (fun '(data, c) =>
                      let data := ptr_add data byte_width in
                      (data, func None c)))
                (positions n start))
           (ptr_add data (start * byte_width), c))
    = run_void
        (map (fun i => func (optional_at arr value_at_fixed_size_binary i))
             (positions n start)) c.
Proof.
  intros byte_width data. induction n as [|n IH]; intros start c; simpl.
  - reflexivity.
  - match goal with
    | |- snd (run_void _ (?call ?state)) = run_void _ (func ?v c) =>
        replace (call state) with (ptr_add data ((start + 1) * byte_width), func v c)
    end.
    + apply IH.
    + unfold call_at, optional_at.
      destruct (is_valid (validity arr) (ArrayData.offset arr) start);
        cbn beta iota zeta; rewrite ptr_add_add; do 2 f_equal; lia.
Qed.

Lemma VisitStatus_fixed_size_binary_scan {Cap} (arr : ArrayData.t)
      (func : option string_view -> Cap -> Status * Cap) (fuel : nat) (c : Cap) :
  array_scan_ok arr fuel ->
  VisitStatus_fixed_size_binary arr func fuel c
  = Some (run_status
            (map (fun i => func (optional_at arr value_at_fixed_size_binary i))
                 (all_positions (ArrayData.length arr))) c).
Proof.
  intros [Hcontract Hfuel]. unfold VisitStatus_fixed_size_binary.
  rewrite (VisitBitBlocks_run _ _ _ _ _ _ _ Hcontract Hfuel).
  destruct (run_status _ c) as [st c1] eqn:Hrun.
  destruct (fixed_size_binary_calls_status arr func _ 0 c _ _ Hrun)
    as (data' & Hcalls).
  rewrite Z.mul_0_l, ptr_add_0 in Hcalls.
  match goal with
  | |- context [run_status ?calls ?state] =>
      replace (run_status calls state) with (st, (data', c1))
        by (symmetry; exact Hcalls)
  end.
  reflexivity.
Qed.

Lemma VisitVoid_fixed_size_binary_scan {Cap} (arr : ArrayData.t)
      (func : option string_view -> Cap -> Cap) (fuel : nat) (c : Cap) :
  array_scan_ok arr fuel ->
  VisitVoid_fixed_size_binary arr func fuel c
  = Some (run_void
            (map (fun i => func (optional_at arr value_at_fixed_size_binary i))
                 (all_positions (ArrayData.length arr))) c).
Proof.
  intros [Hcontract Hfuel]. unfold VisitVoid_fixed_size_binary.
  rewrite (VisitBitBlocksVoid_run _ _ _ _ _ _ _ Hcontract Hfuel).
  pose proof (fixed_size_binary_calls_void arr func
                (Z.to_nat (ArrayData.length arr)) 0 c) as Hcalls.
  rewrite Z.mul_0_l, ptr_add_0 in Hcalls.
  unfold all_positions. rewrite <- Hcalls.
  match goal with
  | |- context [snd ?r] => change (snd r) with (let (_, c') := r in c')
  end.
  cbv zeta. now destruct (run_void _ _).
Qed.

#[global] Instance ArrayDataInlineVisitorSpec_c_type
  : @ArrayDataInlineVisitorSpec has_c_type ArrayDataInlineVisitor_c_type :=
  @Build_ArrayDataInlineVisitorSpec has_c_type ArrayDataInlineVisitor_c_type
    value_at_c_type (@VisitStatus_c_type_scan) (@VisitVoid_c_type_scan).

#[global] Instance ArrayDataInlineVisitorSpec_boolean
  : @ArrayDataInlineVisitorSpec is_boolean ArrayDataInlineVisitor_boolean :=
  @Build_ArrayDataInlineVisitorSpec is_boolean ArrayDataInlineVisitor_boolean
    value_at_boolean (@VisitStatus_boolean_scan) (@VisitVoid_boolean_scan).

#[global] Instance ArrayDataInlineVisitorSpec_binary
  : @ArrayDataInlineVisitorSpec base_binary ArrayDataInlineVisitor_binary :=
  @Build_ArrayDataInlineVisitorSpec base_binary ArrayDataInlineVisitor_binary
    value_at_binary (@VisitStatus_binary_scan) (@VisitVoid_binary_scan).

#[global] Instance ArrayDataInlineVisitorSpec_fixed_size_binary
  : @ArrayDataInlineVisitorSpec fixed_size_binary ArrayDataInlineVisitor_fixed_size_binary :=
  @Build_ArrayDataInlineVisitorSpec fixed_size_binary ArrayDataInlineVisitor_fixed_size_binary
    value_at_fixed_size_binary (@VisitStatus_fixed_size_binary_scan) (@VisitVoid_fixed_size_binary_scan).

(** ** Logs of calls *)

Lemma run_void_record (bitmap : option Buffer) (offset : Z) (ps : list Z)
      (log : list Call) :
  run_void (map (call_at bitmap offset record_not_null record_null) ps) log
  = log ++ map (expected_call bitmap offset) ps.
Proof.
  revert log; induction ps as [|i ps IH]; intros log; simpl.
  - now rewrite app_nil_r.
  - rewrite IH. unfold call_at, expected_call, record_not_null, record_null.
    destruct (is_valid bitmap offset i); now rewrite <- app_assoc.
Qed.

Lemma call_at_traced {Cap} (bitmap : option Buffer) (offset : Z)
      (visit_not_null : Z -> Cap -> Status * Cap) (visit_null : Cap -> Status * Cap)
      (i : Z) (c : Cap) (log : list Call) :
  call_at bitmap offset (traced_not_null visit_not_null) (traced_null visit_null)
          i (c, log)
  = let (st, c') := call_at bitmap offset visit_not_null visit_null i c in
    (st, (c', log ++ [expected_call bitmap offset i])).
Proof.
  unfold call_at, expected_call, traced_not_null, traced_null, traced.
  now destruct (is_valid bitmap offset i).
Qed.

(** While the calls succeed, the traced run makes the same calls and logs
    each of them. *)
Lemma run_status_traced_ok {Cap} (bitmap : option Buffer) (offset : Z)
      (visit_not_null : Z -> Cap -> Status * Cap) (visit_null : Cap -> Status * Cap)
      (ps : list Z) :
  forall (c c1 : Cap) (log : list Call),
    run_status (map (call_at bitmap offset visit_not_null visit_null) ps) c
    = (Status.OK, c1) ->
    run_status
      (map (call_at bitmap offset
              (traced_not_null visit_not_null) (traced_null visit_null)) ps)
      (c, log)
    = (Status.OK, (c1, log ++ map (expected_call bitmap offset) ps)).
Proof.
  induction ps as [|i ps IH]; intros c c1 log; simpl.
  - intros [= <-]. now rewrite app_nil_r.
  - rewrite call_at_traced.
    destruct (call_at bitmap offset visit_not_null visit_null i c) as [st c0].
    destruct (Status.ok st) eqn:Hok; [|intros [= -> _]; discriminate].
    intros Hrun. rewrite (IH _ _ _ Hrun). now rewrite <- app_assoc.
Qed.

(** The run up to and including the first failing call. *)
Lemma run_status_first_failure {Cap} {calls : Z -> Cap -> Status * Cap}
      {before : list Z} (rest : list Z) {i : Z} {c ck ck' : Cap} {st : Status} :
  run_status (map calls before) c = (Status.OK, ck) ->
  calls i ck = (st, ck') ->
  Status.ok st = false ->
  run_status (map calls (before ++ i :: rest)) c = (st, ck').
Proof.
  intros Hbefore Hcall Hfail.
  rewrite map_app, (run_status_ok_app _ Hbefore). simpl.
  now rewrite Hcall, Hfail.
Qed.

(** All positions, split at position [k]. *)
Lemma all_positions_split (length k : Z) :
  0 <= k < length ->
  all_positions length
  = all_positions k ++ k :: positions (Z.to_nat (length - k - 1)) (k + 1).
Proof.
  intros Hk. unfold all_positions.
  replace (Z.to_nat length) with (Z.to_nat k + S (Z.to_nat (length - k - 1)))%nat
    by lia.
  rewrite positions_app. simpl. rewrite Z2Nat.id by lia. reflexivity.
Qed.

Lemma all_positions_succ (k : Z) :
  0 <= k -> all_positions (k + 1) = all_positions k ++ [k].
Proof.
  intros Hk. unfold all_positions.
  replace (Z.to_nat (k + 1)) with (Z.to_nat k + 1)%nat by lia.
  rewrite positions_app. simpl. rewrite Z2Nat.id by lia. reflexivity.
Qed.

Lemma run_status_record {A} (f : Z -> A) (ps : list Z) (log : list A) :
  run_status (map (fun i => record_status (f i)) ps) log
  = (Status.OK, log ++ map f ps).
Proof.
  revert log; induction ps as [|i ps IH]; intros log; simpl.
  - now rewrite app_nil_r.
  - rewrite IH. now rewrite <- app_assoc.
Qed.

Lemma run_void_record_values {A} (f : Z -> A) (ps : list Z) (log : list A) :
  run_void (map (fun i => record_void (f i)) ps) log = log ++ map f ps.
Proof.
  revert log; induction ps as [|i ps IH]; intros log; simpl.
  - now rewrite app_nil_r.
  - rewrite IH. unfold record_void. now rewrite <- app_assoc.
Qed.

Lemma nth_all_positions {A} (f : Z -> A) (d : A) (length i : Z) :
  0 <= i < length ->
  nth (Z.to_nat i) (map f (all_positions length)) d = f i.
Proof.
  intros Hi. unfold all_positions.
  rewrite (nth_indep _ d (f 0)) by (rewrite length_map, positions_length; lia).
  rewrite map_nth, positions_nth by lia. f_equal. lia.
Qed.

Lemma length_all_positions {A} (f : Z -> A) (length : Z) :
  List.length (map f (all_positions length)) = Z.to_nat length.
Proof. unfold all_positions. now rewrite length_map, positions_length. Qed.

(** What a specialisation hands to a callback that writes its arguments
    down: the optional values of the positions, in order. *)
Lemma VisitStatus_record {T} {V : ArrayDataInlineVisitor T}
      {Spec : ArrayDataInlineVisitorSpec T} (arr : ArrayData.t) (fuel : nat) :
  array_scan_ok arr fuel ->
  VisitStatus arr record_status fuel []
  = Some (Status.OK,
          map (optional_at arr value_at) (all_positions (ArrayData.length arr))).
Proof.
  intros Hscan. rewrite VisitStatus_scan by assumption.
  now rewrite (run_status_record (optional_at arr value_at)).
Qed.

Lemma VisitVoid_record {T} {V : ArrayDataInlineVisitor T}
      {Spec : ArrayDataInlineVisitorSpec T} (arr : ArrayData.t) (fuel : nat) :
  array_scan_ok arr fuel ->
  VisitVoid arr record_void fuel []
  = Some (map (optional_at arr value_at) (all_positions (ArrayData.length arr))).
Proof.
  intros Hscan. rewrite VisitVoid_scan by assumption.
  now rewrite (run_void_record_values (optional_at arr value_at)).
Qed.

Lemma to_size_t_small (n : Z) : 0 <= n < 2 ^ 64 -> to_size_t n = n.
Proof. intros Hn. unfold to_size_t. now apply Z.mod_small. Qed.

(** ** Facts about the dispatch tables *)

Lemma ARROW_GENERATE_FOR_ALL_TYPES_map {A} (ACTION : TypeClass.t -> A) :
  ARROW_GENERATE_FOR_ALL_TYPES ACTION
  = map ACTION (ARROW_GENERATE_FOR_ALL_TYPES (fun TYPE_CLASS => TYPE_CLASS)).
Proof. reflexivity. Qed.

(** A [switch] none of whose labels is the scrutinee takes the [default]. *)
Lemma switch_default {A} (scrutinee : Z) (cases : list (Z * A)) (default : A) :
  (forall label body, In (label, body) cases -> label <> scrutinee) ->
  switch scrutinee cases default = default.
Proof.
  induction cases as [|[label body] cases IH]; intros Hlabels; simpl.
  - reflexivity.
  - destruct (Z.eqb_spec scrutinee label) as [Heq|_].
    + exfalso. apply (Hlabels label body); [now left | congruence].
    + apply IH. intros l b Hin. apply (Hlabels l b). now right.
Qed.

Lemma switch_unrecognized {A} (tag : Z) (ACTION : TypeClass.t -> Z * A) (default : A) :
  (forall TYPE_CLASS, fst (ACTION TYPE_CLASS) <> tag) ->
  switch tag (ARROW_GENERATE_FOR_ALL_TYPES ACTION) default = default.
Proof.
  intros Hlabels. apply switch_default. intros label body.
  rewrite ARROW_GENERATE_FOR_ALL_TYPES_map, in_map_iff.
  intros (TYPE_CLASS & Haction & _). specialize (Hlabels TYPE_CLASS).
  now rewrite Haction in Hlabels.
Qed.

(** ** The traversal theorems *)

(** C1.  Under the counter's contract, for every bitmap (present or absent),
    offset and length, the void traversal [VisitBitBlocksVoid] is the scan
    of positions [0 .. length - 1] in increasing order with one call for
    each position: [visit_not_null i] where position [i] is valid,
    [visit_null] where it is null.  With callbacks that write down their
    calls, the log has exactly [length] entries and entry [k] is the call for
    position [k]. *)
Theorem VisitBitBlocksVoid_visits_every_position_once
        {Cap} (bitmap_buf : option Buffer) (offset length : Z)
        (visit_not_null : Z -> Cap -> Cap) (visit_null : Cap -> Cap)
        (fuel : nat) (c : Cap) :
  scanner_contract bitmap_buf offset length ->
  (Z.to_nat length <= fuel)%nat ->
  VisitBitBlocksVoid bitmap_buf offset length visit_not_null visit_null fuel c
  = Some (run_void
            (map (call_at bitmap_buf offset visit_not_null visit_null)
                 (all_positions length)) c)
  /\ exists trace : list Call,
      VisitBitBlocksVoid bitmap_buf offset length record_not_null record_null fuel []
      = Some trace
      /\ List.length trace = Z.to_nat length
      /\ forall k : nat,
          (k < Z.to_nat length)%nat ->
          nth k trace CallNull = expected_call bitmap_buf offset (Z.of_nat k).
Proof.
  intros Hcontract Hfuel. split.
  - now apply VisitBitBlocksVoid_run.
  - exists (map (expected_call bitmap_buf offset) (all_positions length)).
    split; [|split].
    + rewrite VisitBitBlocksVoid_run by assumption.
      now rewrite run_void_record.
    + unfold all_positions. now rewrite length_map, positions_length.
    + intros k Hk. unfold all_positions.
      rewrite (nth_indep _ CallNull (expected_call bitmap_buf offset 0))
        by now rewrite length_map, positions_length.
      rewrite map_nth, positions_nth by assumption. reflexivity.
Qed.

(** C2.  Under the counter's contract, if the calls for positions
    [0 .. k - 1] all succeed and the call for position [k] returns a
    failure [st], then [VisitBitBlocks] returns [st] itself, in the state
    the failing call left; the log of the traced run holds the calls for
    positions [0 .. k] and nothing else, [k + 1] entries in all. *)
Theorem VisitBitBlocks_fails_fast
        {Cap} (bitmap_buf : option Buffer) (offset length : Z)
        (visit_not_null : Z -> Cap -> Status * Cap)
        (visit_null : Cap -> Status * Cap)
        (fuel : nat) (c : Cap) (k : Z) (st : Status) (ck ck' : Cap) :
  scanner_contract bitmap_buf offset length ->
  (Z.to_nat length <= fuel)%nat ->
  0 <= k < length ->
  run_status
    (map (call_at bitmap_buf offset visit_not_null visit_null) (all_positions k)) c
  = (Status.OK, ck) ->
  call_at bitmap_buf offset visit_not_null visit_null k ck = (st, ck') ->
  Status.ok st = false ->
  VisitBitBlocks bitmap_buf offset length visit_not_null visit_null fuel c
  = Some (st, ck')
  /\ exists trace : list Call,
      VisitBitBlocks bitmap_buf offset length
        (traced_not_null visit_not_null) (traced_null visit_null) fuel (c, [])
      = Some (st, (ck', trace))
      /\ trace = map (expected_call bitmap_buf offset) (all_positions (k + 1))
      /\ Z.of_nat (List.length trace) = k + 1.
Proof.
  intros Hcontract Hfuel Hk Hbefore Hcall Hfail. split.
  - rewrite VisitBitBlocks_run by assumption.
    rewrite (all_positions_split length k Hk).
    now rewrite (run_status_first_failure _ Hbefore Hcall Hfail).
  - eexists. split; [|split; [reflexivity|]].
    + rewrite VisitBitBlocks_run by assumption.
      rewrite (all_positions_split length k Hk).
      rewrite (run_status_first_failure
                 (ck' := (ck', map (expected_call bitmap_buf offset)
                                   (all_positions (k + 1))))
                 (st := st) _
                 (run_status_traced_ok _ _ _ _ _ _ _ [] Hbefore));
        [reflexivity| |assumption].
      rewrite call_at_traced, Hcall.
      rewrite all_positions_succ, map_app by lia. reflexivity.
    + unfold all_positions. rewrite length_map, positions_length. lia.
Qed.

(** C5.  Under the counter's contract, when the validity bitmap is absent
    the value traversals call [visit_not_null] for every position and never
    [visit_null], and the null-bitmap traversals pass [true] for every
    position. *)
Theorem absent_bitmap_every_position_valid
        {Cap} (offset length null_count : Z)
        (visit_not_null : Z -> Cap -> Status * Cap) (visit_null : Cap -> Status * Cap)
        (visit_not_null_void : Z -> Cap -> Cap) (visit_null_void : Cap -> Cap)
        (func : bool -> Cap -> Status * Cap) (func_void : bool -> Cap -> Cap)
        (fuel : nat) (c : Cap) :
  scanner_contract None offset length ->
  (Z.to_nat length <= fuel)%nat ->
  VisitBitBlocks None offset length visit_not_null visit_null fuel c
  = Some (run_status (map visit_not_null (all_positions length)) c)
  /\ VisitBitBlocksVoid None offset length visit_not_null_void visit_null_void fuel c
     = Some (run_void (map visit_not_null_void (all_positions length)) c)
  /\ VisitNullBitmapInline None offset length null_count func fuel c
     = Some (run_status (map (fun _ => func true) (all_positions length)) c)
  /\ VisitNullBitmapInlineVoid None offset length null_count func_void fuel c
     = Some (run_void (map (fun _ => func_void true) (all_positions length)) c).
Proof.
  intros Hcontract Hfuel. repeat split.
  - now rewrite VisitBitBlocks_run.
  - now rewrite VisitBitBlocksVoid_run.
  - now rewrite VisitNullBitmapInline_run.
  - now rewrite VisitNullBitmapInlineVoid_run.
Qed.

(** C8.  Under the counter's contract, for every bitmap, offset and length
    the block-driven traversals return what the reference scans return that
    test bit [offset + i] for each position [i] on its own: the same
    callback at each position for the value traversals, the same boolean at
    each position for the null-bitmap traversals. *)
Theorem block_traversal_agrees_with_bit_by_bit_scan
        {Cap} (bits : Buffer) (offset length null_count : Z)
        (visit_not_null : Z -> Cap -> Status * Cap) (visit_null : Cap -> Status * Cap)
        (visit_not_null_void : Z -> Cap -> Cap) (visit_null_void : Cap -> Cap)
        (func : bool -> Cap -> Status * Cap) (func_void : bool -> Cap -> Cap)
        (fuel : nat) (c : Cap) :
  scanner_contract (Some bits) offset length ->
  (Z.to_nat length <= fuel)%nat ->
  VisitBitBlocks (Some bits) offset length visit_not_null visit_null fuel c
  = Some (bit_by_bit_scan bits offset length visit_not_null visit_null c)
  /\ VisitBitBlocksVoid (Some bits) offset length
       visit_not_null_void visit_null_void fuel c
     = Some (bit_by_bit_scan_void bits offset length
               visit_not_null_void visit_null_void c)
  /\ VisitNullBitmapInline (Some bits) offset length null_count func fuel c
     = Some (bit_by_bit_validity bits offset length func c)
  /\ VisitNullBitmapInlineVoid (Some bits) offset length null_count func_void fuel c
     = Some (bit_by_bit_validity_void bits offset length func_void c).
Proof.
  intros Hcontract Hfuel. repeat split.
  - now rewrite VisitBitBlocks_run.
  - now rewrite VisitBitBlocksVoid_run.
  - now rewrite VisitNullBitmapInline_run.
  - now rewrite VisitNullBitmapInlineVoid_run.
Qed.

(** C9.  For every counter, bitmap, offset, length, callback and fuel, two
    runs of [VisitNullBitmapInline] that differ only in [null_count] return
    the same result in the same callback state, in the status form and in
    the void form. *)
Theorem VisitNullBitmapInline_ignores_null_count
        {Cap} (valid_bits : option Buffer) (valid_bits_offset num_values : Z)
        (null_count1 null_count2 : Z)
        (func : bool -> Cap -> Status * Cap) (func_void : bool -> Cap -> Cap)
        (fuel : nat) (c : Cap) :
  VisitNullBitmapInline valid_bits valid_bits_offset num_values null_count1
    func fuel c
  = VisitNullBitmapInline valid_bits valid_bits_offset num_values null_count2
      func fuel c
  /\ VisitNullBitmapInlineVoid valid_bits valid_bits_offset num_values null_count1
       func_void fuel c
     = VisitNullBitmapInlineVoid valid_bits valid_bits_offset num_values null_count2
         func_void fuel c.
Proof.
  unfold VisitNullBitmapInline, VisitNullBitmapInlineVoid. split; reflexivity.
Qed.

(** ** The views of the binary visitors *)

(** C3.  For a variable-length binary array with a value buffer, under the
    counter's contract: the callback is called once for each position, and
    for a valid position [i] whose two offsets are in order it receives the
    view that starts at byte [offsets[i]] of [buffers[2]], taken from its
    unsliced start, and has [offsets[i + 1] - offsets[i]] bytes.  The
    array's offset moves the offsets read, never the base of the values. *)
Theorem binary_view_bounds
        (arr : ArrayData.t) (values : Buffer) (fuel : nat) (i : Z) :
  ArrayData.buffer arr 2 = Some values ->
  array_scan_ok arr fuel ->
  0 <= i < ArrayData.length arr ->
  is_valid (validity arr) (ArrayData.offset arr) i = true ->
  0 <= offsets_at arr (i + 1) - offsets_at arr i < 2 ^ 64 ->
  exists trace : list (option string_view),
    VisitStatus_binary arr record_status fuel [] = Some (Status.OK, trace)
    /\ VisitVoid_binary arr record_void fuel [] = Some trace
    /\ List.length trace = Z.to_nat (ArrayData.length arr)
    /\ nth (Z.to_nat i) trace None
       = Some {| sv_data := {| base := BufferData 2; index := offsets_at arr i |};
                 sv_size := offsets_at arr (i + 1) - offsets_at arr i |}.
Proof.
  intros Hvalues Hscan Hi Hvalid Horder.
  exists (map (optional_at arr value_at_binary) (all_positions (ArrayData.length arr))).
  split; [|split; [|split]].
  - exact (VisitStatus_record (T := base_binary) arr fuel Hscan).
  - exact (VisitVoid_record (T := base_binary) arr fuel Hscan).
  - apply length_all_positions.
  - rewrite nth_all_positions by assumption.
    unfold optional_at. rewrite Hvalid. f_equal.
    unfold value_at_binary, binary_data, ArrayData.GetValues_absolute.
    rewrite Hvalues, to_size_t_small by assumption.
    unfold ptr_add; simpl. reflexivity.
Qed.

(** C4.  For a fixed-size binary array of byte width [w] with a data
    buffer, under the counter's contract: the callback is called once for
    each position, and for a valid position [i] it receives the view that
    starts at byte [(offset + i) * w] of [buffers[1]] and has [w] bytes,
    whatever the validity of the positions before [i]. *)
Theorem fixed_size_binary_view_bounds
        (arr : ArrayData.t) (records : Buffer) (fuel : nat) (i : Z) :
  let byte_width := DataType.byte_width (ArrayData.type arr) in
  ArrayData.buffer arr 1 = Some records ->
  array_scan_ok arr fuel ->
  0 <= i < ArrayData.length arr ->
  is_valid (validity arr) (ArrayData.offset arr) i = true ->
  0 <= byte_width < 2 ^ 64 ->
  exists trace : list (option string_view),
    VisitStatus_fixed_size_binary arr record_status fuel [] = Some (Status.OK, trace)
    /\ VisitVoid_fixed_size_binary arr record_void fuel [] = Some trace
    /\ List.length trace = Z.to_nat (ArrayData.length arr)
    /\ nth (Z.to_nat i) trace None
       = Some {| sv_data := {| base := BufferData 1;
                               index := (ArrayData.offset arr + i) * byte_width |};
                 sv_size := byte_width |}.
Proof.
  intros byte_width Hrecords Hscan Hi Hvalid Hwidth.
  exists (map (optional_at arr value_at_fixed_size_binary)
              (all_positions (ArrayData.length arr))).
  split; [|split; [|split]].
  - exact (VisitStatus_record (T := fixed_size_binary) arr fuel Hscan).
  - exact (VisitVoid_record (T := fixed_size_binary) arr fuel Hscan).
  - apply length_all_positions.
  - rewrite nth_all_positions by assumption.
    unfold optional_at. rewrite Hvalid. f_equal.
    unfold value_at_fixed_size_binary, ArrayData.GetValues_absolute.
    fold byte_width. rewrite Hrecords, to_size_t_small by assumption.
    unfold ptr_add; simpl. do 2 f_equal. lia.
Qed.

(** C10.  For a variable-length binary array without a value buffer, under
    the counter's contract: the base of the views is the address of the
    zero byte [empty_value], not a null pointer; both traversals run to the
    end; and every valid position receives a view based at [empty_value],
    which is empty when the two offsets of the position are equal. *)
Theorem binary_absent_value_buffer
        (arr : ArrayData.t) (fuel : nat) :
  ArrayData.buffer arr 2 = None ->
  array_scan_ok arr fuel ->
  binary_data arr = empty_value_ptr
  /\ ArrayData.load arr empty_value_ptr = 0
  /\ exists trace : list (option string_view),
      VisitStatus_binary arr record_status fuel [] = Some (Status.OK, trace)
      /\ VisitVoid_binary arr record_void fuel [] = Some trace
      /\ List.length trace = Z.to_nat (ArrayData.length arr)
      /\ forall i : Z,
          0 <= i < ArrayData.length arr ->
          is_valid (validity arr) (ArrayData.offset arr) i = true ->
          exists v : string_view,
            nth (Z.to_nat i) trace None = Some v
            /\ sv_data v = ptr_add empty_value_ptr (offsets_at arr i)
            /\ base (sv_data v) = EmptyValue
            /\ (offsets_at arr (i + 1) = offsets_at arr i -> sv_size v = 0).
Proof.
  intros Habsent Hscan.
  assert (Hdata : binary_data arr = empty_value_ptr)
    by (unfold binary_data; now rewrite Habsent).
  split; [exact Hdata | split; [reflexivity|]].
  exists (map (optional_at arr value_at_binary) (all_positions (ArrayData.length arr))).
  split; [|split; [|split]].
  - exact (VisitStatus_record (T := base_binary) arr fuel Hscan).
  - exact (VisitVoid_record (T := base_binary) arr fuel Hscan).
  - apply length_all_positions.
  - intros i Hi Hvalid. exists (value_at_binary arr i).
    rewrite nth_all_positions by assumption.
    unfold optional_at. rewrite Hvalid.
    unfold value_at_binary. rewrite Hdata. simpl.
    repeat split. intros ->. now rewrite Z.sub_diag.
Qed.

(** ** [ArrayDataVisitor] *)

(** C7.  For every specialisation, array and dual-method visitor,
    [ArrayDataVisitor::Visit] returns what [VisitStatus] returns for the
    callback that sends an empty optional to [VisitNull] and a full one to
    [VisitValue], in the same visitor state, for every fuel.  Under the
    counter's contract both are the dual-method scan of the spec:
    [VisitValue] or [VisitNull] for each position in order, up to the first
    failure. *)
Theorem ArrayDataVisitor_Visit_is_VisitStatus
        {T} {V : ArrayDataInlineVisitor T} {Spec : ArrayDataInlineVisitorSpec T}
        {Cap} (arr : ArrayData.t) (visitor : Visitor c_type Cap)
        (fuel : nat) (c : Cap) :
  let func := fun (v : option c_type) =>
                match v with
                | Some x => VisitValue visitor x
                | None => VisitNull visitor
                end in
  ArrayDataVisitor_Visit arr visitor fuel c = VisitStatus arr func fuel c
  /\ (array_scan_ok arr fuel ->
      ArrayDataVisitor_Visit arr visitor fuel c
      = Some (dual_method_scan arr value_at visitor c)
      /\ VisitStatus arr func fuel c
         = Some (dual_method_scan arr value_at visitor c)).
Proof.
  intros func. split; [reflexivity|].
  intros Hscan. unfold ArrayDataVisitor_Visit. fold func.
  rewrite VisitStatus_scan by assumption.
  assert (Hcalls :
            map (fun i => func (optional_at arr value_at i))
                (all_positions (ArrayData.length arr))
            = map (fun i =>
                     if is_valid (validity arr) (ArrayData.offset arr) i
                     then VisitValue visitor (value_at arr i)
                     else VisitNull visitor)
                  (all_positions (ArrayData.length arr))).
  { apply map_ext. intros i. unfold func, optional_at.
    now destruct (is_valid _ _ i). }
  unfold dual_method_scan. now rewrite Hcalls.
Qed.

(** ** The dispatchers *)

(** C6.  For a tag that is the [type_id] of none of the type classes, each
    of the three dispatchers returns a "not implemented" status and leaves
    the visitor's state as it was, whatever the visitor: none of its
    methods is called. *)
Theorem dispatchers_reject_unrecognized_tag
        {Cap} (type : DataType.t) (array : Array.t) (scalar : Scalar.t)
        (type_visitor : TypeVisitor DataType.t Cap)
        (array_visitor : TypeVisitor Array.t Cap)
        (scalar_visitor : TypeVisitor Scalar.t Cap) (c : Cap) :
  (forall TYPE_CLASS, type_id TYPE_CLASS <> DataType.id type) ->
  (forall TYPE_CLASS, type_id TYPE_CLASS <> Array.type_id array) ->
  (forall TYPE_CLASS, type_id TYPE_CLASS <> DataType.id (Scalar.type scalar)) ->
  VisitTypeInline type type_visitor c
  = (Status.NotImplemented "Type not implemented", c)
  /\ VisitArrayInline array array_visitor c
     = (Status.NotImplemented "Type not implemented", c)
  /\ VisitScalarInline scalar scalar_visitor c
     = (Status.NotImplemented
          ("Scalar visitor for type not implemented "
             ++ DataType.ToString (Scalar.type scalar)), c)
  /\ Status.IsNotImplemented (fst (VisitTypeInline type type_visitor c)) = true
  /\ Status.IsNotImplemented (fst (VisitArrayInline array array_visitor c)) = true
  /\ Status.IsNotImplemented (fst (VisitScalarInline scalar scalar_visitor c)) = true.
Proof.
  intros Htype Harray Hscalar.
  assert (Ht : VisitTypeInline type type_visitor c
               = (Status.NotImplemented "Type not implemented", c))
    by (apply switch_unrecognized; exact Htype).
  assert (Ha : VisitArrayInline array array_visitor c
               = (Status.NotImplemented "Type not implemented", c))
    by (apply switch_unrecognized; exact Harray).
  assert (Hs : VisitScalarInline scalar scalar_visitor c
               = (Status.NotImplemented
                    ("Scalar visitor for type not implemented "
                       ++ DataType.ToString (Scalar.type scalar)), c))
    by (apply switch_unrecognized; exact Hscalar).
  rewrite Ht, Ha, Hs. repeat split.
Qed.

(** Every type class is among the arguments of [ARROW_GENERATE_FOR_ALL_TYPES]. *)
Lemma ARROW_GENERATE_FOR_ALL_TYPES_total (TYPE_CLASS : TypeClass.t) :
  In TYPE_CLASS (ARROW_GENERATE_FOR_ALL_TYPES (fun TYPE_CLASS => TYPE_CLASS)).
Proof. destruct TYPE_CLASS; simpl; tauto. Qed.

(** With labels of their own, the [switch] over the classes takes the case
    of the class whose label the scrutinee is. *)
Lemma switch_recognized {A} (ACTION : TypeClass.t -> Z * A) (default : A)
      (TYPE_CLASS : TypeClass.t) :
  (forall a b, type_id a = type_id b -> a = b) ->
  (forall a, fst (ACTION a) = type_id a) ->
  switch (type_id TYPE_CLASS) (ARROW_GENERATE_FOR_ALL_TYPES ACTION) default
  = snd (ACTION TYPE_CLASS).
Proof.
  intros Hinj Hlabel. rewrite ARROW_GENERATE_FOR_ALL_TYPES_map.
  pose proof (ARROW_GENERATE_FOR_ALL_TYPES_total TYPE_CLASS) as Hin.
  induction (ARROW_GENERATE_FOR_ALL_TYPES (fun TYPE_CLASS => TYPE_CLASS))
    as [|a classes IH]; simpl in *; [tauto|].
  destruct (ACTION a) as [label body] eqn:Haction.
  pose proof (Hlabel a) as Ha. rewrite Haction in Ha. simpl in Ha. subst label.
  destruct (Z.eqb_spec (type_id TYPE_CLASS) (type_id a)) as [Heq|Hne].
  - apply Hinj in Heq. subst a. now rewrite Haction.
  - apply IH. destruct Hin as [->|Hin]; [congruence | exact Hin].
Qed.

(** X1.  The dispatchers are total over the classes: when the classes have tags
    of their own, a type, array or scalar that carries the tag of a class
    is handed to the visitor's method for that class, and the dispatcher
    returns what the method returns. *)
Theorem dispatchers_visit_recognized_tag
        {Cap} (TYPE_CLASS : TypeClass.t)
        (type : DataType.t) (array : Array.t) (scalar : Scalar.t)
        (type_visitor : TypeVisitor DataType.t Cap)
        (array_visitor : TypeVisitor Array.t Cap)
        (scalar_visitor : TypeVisitor Scalar.t Cap) (c : Cap) :
  (forall a b, type_id a = type_id b -> a = b) ->
  DataType.id type = type_id TYPE_CLASS ->
  Array.type_id array = type_id TYPE_CLASS ->
  DataType.id (Scalar.type scalar) = type_id TYPE_CLASS ->
  VisitTypeInline type type_visitor c = type_visitor TYPE_CLASS type c
  /\ VisitArrayInline array array_visitor c = array_visitor TYPE_CLASS array c
  /\ VisitScalarInline scalar scalar_visitor c = scalar_visitor TYPE_CLASS scalar c.
Proof.
  intros Hinj Htype Harray Hscalar.
  unfold VisitTypeInline, VisitArrayInline, VisitScalarInline.
  rewrite Htype, Harray, Hscalar.
  repeat split; now rewrite switch_recognized.
Qed.

(** X2.  Every specialisation calls [func] once for each position, in order, on
    the optional value of the position: with a callback that writes its
    arguments down, [VisitVoid] and [VisitStatus] leave the same log, of
    [length] entries, entry [i] being the value of position [i] when it is
    valid and the empty optional when it is null. *)
Theorem VisitArrayDataInline_calls_func_once_per_position
        {T} {V : ArrayDataInlineVisitor T} {Spec : ArrayDataInlineVisitorSpec T}
        (arr : ArrayData.t) (fuel : nat) :
  array_scan_ok arr fuel ->
  exists trace : list (option c_type),
    VisitArrayDataInlineVoid arr record_void fuel [] = Some trace
    /\ VisitArrayDataInline arr record_status fuel [] = Some (Status.OK, trace)
    /\ List.length trace = Z.to_nat (ArrayData.length arr)
    /\ forall i : Z,
        0 <= i < ArrayData.length arr ->
        nth (Z.to_nat i) trace None = optional_at arr value_at i.
Proof.
  intros Hscan.
  exists (map (optional_at arr value_at) (all_positions (ArrayData.length arr))).
  split; [|split; [|split]].
  - now apply VisitVoid_record.
  - now apply VisitStatus_record.
  - apply length_all_positions.
  - intros i Hi. now apply nth_all_positions.
Qed.

(** ** The status form and the void form *)

Lemma for_status_infallible {Cap} (n : nat) (body : Z -> Cap -> Status * Cap)
      (body_void : Z -> Cap -> Cap) :
  (forall i c, body i c = (Status.OK, body_void i c)) ->
  forall (position : Z) (c : Cap),
    for_status n body position c = (Status.OK, for_void n body_void position c).
Proof.
  intros Hbody. induction n as [|n IH]; intros position c; simpl.
  - reflexivity.
  - rewrite Hbody. simpl. apply IH.
Qed.

Lemma VisitBitBlocks_block_infallible {Cap} (bitmap : option Buffer) (offset : Z)
      (visit_not_null : Z -> Cap -> Status * Cap) (visit_null : Cap -> Status * Cap)
      (visit_not_null_void : Z -> Cap -> Cap) (visit_null_void : Cap -> Cap)
      (block : BitBlockCount) (position : Z) (c : Cap) :
  (forall i c, visit_not_null i c = (Status.OK, visit_not_null_void i c)) ->
  (forall c, visit_null c = (Status.OK, visit_null_void c)) ->
  VisitBitBlocks_block bitmap offset visit_not_null visit_null block position c
  = (Status.OK,
     VisitBitBlocksVoid_block bitmap offset visit_not_null_void visit_null_void
       block position c).
Proof.
  intros Hnot_null Hnull. unfold VisitBitBlocks_block, VisitBitBlocksVoid_block.
  destruct (AllSet block); [|destruct (NoneSet block)];
    apply for_status_infallible; intros i c0; auto.
  now destruct (GetBit bitmap (offset + i)).
Qed.

(** With callbacks that never fail, the loop of [VisitBitBlocks] is the loop
    of [VisitBitBlocksVoid], whatever the counter does. *)
Lemma VisitBitBlocks_while_infallible {Cap} (bitmap : option Buffer)
      (offset length : Z)
      (visit_not_null : Z -> Cap -> Status * Cap) (visit_null : Cap -> Status * Cap)
      (visit_not_null_void : Z -> Cap -> Cap) (visit_null_void : Cap -> Cap) :
  (forall i c, visit_not_null i c = (Status.OK, visit_not_null_void i c)) ->
  (forall c, visit_null c = (Status.OK, visit_null_void c)) ->
  forall (fuel : nat) (counter : Counter) (position : Z) (c : Cap),
    VisitBitBlocks_while bitmap offset length visit_not_null visit_null
      fuel counter position c
    = option_map (pair Status.OK)
        (VisitBitBlocksVoid_while bitmap offset length
           visit_not_null_void visit_null_void fuel counter position c).
Proof.
  intros Hnot_null Hnull.
  induction fuel as [|fuel IH]; intros counter position c; simpl;
    destruct (position <? length); try reflexivity.
  destruct (NextBlock counter) as [block counter'].
  rewrite (VisitBitBlocks_block_infallible _ _ _ _ _ _ _ _ _ Hnot_null Hnull).
  destruct (VisitBitBlocksVoid_block _ _ _ _ _ _ _) as [position' c'].
  simpl. apply IH.
Qed.

Lemma VisitBitBlocks_infallible {Cap} (bitmap_buf : option Buffer)
      (offset length : Z)
      (visit_not_null : Z -> Cap -> Status * Cap) (visit_null : Cap -> Status * Cap)
      (visit_not_null_void : Z -> Cap -> Cap) (visit_null_void : Cap -> Cap)
      (fuel : nat) (c : Cap) :
  (forall i c, visit_not_null i c = (Status.OK, visit_not_null_void i c)) ->
  (forall c, visit_null c = (Status.OK, visit_null_void c)) ->
  VisitBitBlocks bitmap_buf offset length visit_not_null visit_null fuel c
  = option_map (pair Status.OK)
      (VisitBitBlocksVoid bitmap_buf offset length
         visit_not_null_void visit_null_void fuel c).
Proof.
  intros Hnot_null Hnull. unfold VisitBitBlocks, VisitBitBlocksVoid.
  now apply VisitBitBlocks_while_infallible.
Qed.

Lemma VisitNullBitmapInline_block_infallible {Cap} (valid_bits : option Buffer)
      (func : bool -> Cap -> Cap) (block : BitBlockCount)
      (offset_position : Z) (c : Cap) :
  VisitNullBitmapInline_block valid_bits (fun b => infallible (func b))
    block offset_position c
  = (Status.OK,
     VisitNullBitmapInlineVoid_block valid_bits func block offset_position c).
Proof.
  unfold VisitNullBitmapInline_block, VisitNullBitmapInlineVoid_block.
  destruct (AllSet block); [|destruct (NoneSet block)];
    apply for_status_infallible; intros; reflexivity.
Qed.

Lemma VisitNullBitmapInline_while_infallible {Cap} (valid_bits : option Buffer)
      (num_values : Z) (func : bool -> Cap -> Cap) :
  forall (fuel : nat) (counter : Counter) (position offset_position : Z) (c : Cap),
    VisitNullBitmapInline_while valid_bits num_values (fun b => infallible (func b))
      fuel counter position offset_position c
    = option_map (pair Status.OK)
        (VisitNullBitmapInlineVoid_while valid_bits num_values func
           fuel counter position offset_position c).
Proof.
  induction fuel as [|fuel IH]; intros counter position offset_position c; simpl;
    destruct (position <? num_values); try reflexivity.
  destruct (NextBlock counter) as [block counter'].
  rewrite VisitNullBitmapInline_block_infallible.
  destruct (VisitNullBitmapInlineVoid_block _ _ _ _ _) as [i' c'].
  simpl. apply IH.
Qed.

(** X3.  The two overloads agree.  For every counter, every fuel and every
    pair of [void] callbacks, the status form run with the callbacks that
    do what the [void] ones do and then return [Status::OK()] gives a result
    exactly when the void form does, in the same final state and with
    status OK: for [VisitBitBlocks] against [VisitBitBlocksVoid] and for the
    two overloads of [VisitNullBitmapInline]. *)
Theorem status_form_of_infallible_callbacks_is_void_form
        {Cap} (bitmap : option Buffer) (offset length null_count : Z)
        (visit_not_null : Z -> Cap -> Cap) (visit_null : Cap -> Cap)
        (func : bool -> Cap -> Cap) (fuel : nat) (c : Cap) :
  VisitBitBlocks bitmap offset length
    (fun i => infallible (visit_not_null i)) (infallible visit_null) fuel c
  = option_map (pair Status.OK)
      (VisitBitBlocksVoid bitmap offset length visit_not_null visit_null fuel c)
  /\ VisitNullBitmapInline bitmap offset length null_count
       (fun b => infallible (func b)) fuel c
     = option_map (pair Status.OK)
         (VisitNullBitmapInlineVoid bitmap offset length null_count func fuel c).
Proof.
  split.
  - apply VisitBitBlocks_infallible; reflexivity.
  - unfold VisitNullBitmapInline, VisitNullBitmapInlineVoid.
    apply VisitNullBitmapInline_while_infallible.
Qed.

(** X4.  The two overloads of [VisitArrayDataInline] agree for each of the
    four specialisations.  For every counter, every fuel, every array and
    every [void] callback [func], [VisitStatus] run with the callback that
    does what [func] does and then returns [Status::OK()] gives a result
    exactly when [VisitVoid] does, in the same final state and with status
    OK. *)
Theorem VisitArrayDataInline_overloads_agree
        {Cap} (arr : ArrayData.t)
        (func_c_type : option Z -> Cap -> Cap)
        (func_boolean : option bool -> Cap -> Cap)
        (func_binary func_fixed_size_binary : option string_view -> Cap -> Cap)
        (fuel : nat) (c : Cap) :
  VisitArrayDataInline (T := has_c_type) arr
    (fun v => infallible (func_c_type v)) fuel c
  = option_map (pair Status.OK)
      (VisitArrayDataInlineVoid (T := has_c_type) arr func_c_type fuel c)
  /\ VisitArrayDataInline (T := is_boolean) arr
       (fun v => infallible (func_boolean v)) fuel c
     = option_map (pair Status.OK)
         (VisitArrayDataInlineVoid (T := is_boolean) arr func_boolean fuel c)
  /\ VisitArrayDataInline (T := base_binary) arr
       (fun v => infallible (func_binary v)) fuel c
     = option_map (pair Status.OK)
         (VisitArrayDataInlineVoid (T := base_binary) arr func_binary fuel c)
  /\ VisitArrayDataInline (T := fixed_size_binary) arr
       (fun v => infallible (func_fixed_size_binary v)) fuel c
     = option_map (pair Status.OK)
         (VisitArrayDataInlineVoid (T := fixed_size_binary) arr
            func_fixed_size_binary fuel c).
Proof.
  unfold VisitArrayDataInline, VisitArrayDataInlineVoid. simpl.
  split; [|split; [|split]].
  - apply VisitBitBlocks_infallible; reflexivity.
  - apply VisitBitBlocks_infallible; reflexivity.
  - apply VisitBitBlocks_infallible; reflexivity.
  - unfold VisitStatus_fixed_size_binary, VisitVoid_fixed_size_binary.
    rewrite (VisitBitBlocks_infallible
               _ _ _ _ _
               (fun (i : Z) '(data, c) =>
                  (ptr_add data (DataType.byte_width (ArrayData.type arr)),
                   func_fixed_size_binary
                     (Some (make_string_view
                              data (DataType.byte_width (ArrayData.type arr)))) c))
               (fun '(data, c) =>
                  (ptr_add data (DataType.byte_width (ArrayData.type arr)),
                   func_fixed_size_binary None c))).
    + now destruct (VisitBitBlocksVoid _ _ _ _ _ _ _) as [[data c']|].
    + intros i [data c0]. reflexivity.
    + intros [data c0]. reflexivity.
Qed.

(** ** Where a returned status comes from *)

Lemma for_status_provenance {Cap} (P : Status -> Prop) (n : nat)
      (body : Z -> Cap -> Status * Cap) :
  P Status.OK ->
  (forall i c, P (fst (body i c))) ->
  forall (position : Z) (c : Cap), P (fst (for_status n body position c)).
Proof.
  intros HOK Hbody. induction n as [|n IH]; intros position c; simpl.
  - exact HOK.
  - pose proof (Hbody position c) as Hcall.
    destruct (body position c) as [st c']. destruct (Status.ok st).
    + apply IH.
    + exact Hcall.
Qed.

Lemma VisitBitBlocks_while_provenance {Cap} (P : Status -> Prop)
      (bitmap : option Buffer) (offset length : Z)
      (visit_not_null : Z -> Cap -> Status * Cap) (visit_null : Cap -> Status * Cap) :
  P Status.OK ->
  (forall i c, P (fst (visit_not_null i c))) ->
  (forall c, P (fst (visit_null c))) ->
  forall (fuel : nat) (counter : Counter) (position : Z) (c : Cap)
         (st : Status) (c' : Cap),
    VisitBitBlocks_while bitmap offset length visit_not_null visit_null
      fuel counter position c = Some (st, c') ->
    P st.
Proof.
  intros HOK Hnot_null Hnull.
  induction fuel as [|fuel IH]; intros counter position c st c'; simpl;
    destruct (position <? length); try discriminate;
    try (intros [= <- _]; exact HOK).
  destruct (NextBlock counter) as [block counter'].
  assert (Hblock : P (fst (VisitBitBlocks_block bitmap offset visit_not_null
                             visit_null block position c))).
  { unfold VisitBitBlocks_block.
    destruct (AllSet block); [|destruct (NoneSet block)];
      apply for_status_provenance; auto.
    intros i c0. now destruct (GetBit bitmap (offset + i)). }
  destruct (VisitBitBlocks_block _ _ _ _ _ _ _) as [st0 [position' c0]].
  simpl in Hblock. destruct (Status.ok st0).
  - apply IH.
  - intros [= <- _]. exact Hblock.
Qed.

Lemma VisitNullBitmapInline_while_provenance {Cap} (P : Status -> Prop)
      (valid_bits : option Buffer) (num_values : Z)
      (func : bool -> Cap -> Status * Cap) :
  P Status.OK ->
  (forall b c, P (fst (func b c))) ->
  forall (fuel : nat) (counter : Counter) (position offset_position : Z) (c : Cap)
         (st : Status) (c' : Cap),
    VisitNullBitmapInline_while valid_bits num_values func
      fuel counter position offset_position c = Some (st, c') ->
    P st.
Proof.
  intros HOK Hfunc.
  induction fuel as [|fuel IH]; intros counter position offset_position c st c'; simpl;
    destruct (position <? num_values); try discriminate;
    try (intros [= <- _]; exact HOK).
  destruct (NextBlock counter) as [block counter'].
  assert (Hblock : P (fst (VisitNullBitmapInline_block valid_bits func block
                             offset_position c))).
  { unfold VisitNullBitmapInline_block.
    destruct (AllSet block); [|destruct (NoneSet block)];
      apply for_status_provenance; auto. }
  destruct (VisitNullBitmapInline_block _ _ _ _ _) as [st0 [i' c0]].
  simpl in Hblock. destruct (Status.ok st0).
  - apply IH.
  - intros [= <- _]. exact Hblock.
Qed.

(** X5.  The status a traversal returns is [Status::OK()] or a status one of
    its callbacks returned: for every counter and every fuel, a property of
    statuses that holds of OK and of everything the callbacks return holds
    of whatever [VisitBitBlocks] and [VisitNullBitmapInline] return.  The
    traversals make no error of their own. *)
Theorem traversal_status_comes_from_callbacks
        {Cap} (P : Status -> Prop)
        (bitmap : option Buffer) (offset length null_count : Z)
        (visit_not_null : Z -> Cap -> Status * Cap) (visit_null : Cap -> Status * Cap)
        (func : bool -> Cap -> Status * Cap) (fuel : nat) (c : Cap) :
  P Status.OK ->
  (forall i c, P (fst (visit_not_null i c))) ->
  (forall c, P (fst (visit_null c))) ->
  (forall b c, P (fst (func b c))) ->
  (forall st c',
      VisitBitBlocks bitmap offset length visit_not_null visit_null fuel c
      = Some (st, c') -> P st)
  /\ (forall st c',
         VisitNullBitmapInline bitmap offset length null_count func fuel c
         = Some (st, c') -> P st).
Proof.
  intros HOK Hnot_null Hnull Hfunc. split; intros st c'.
  - unfold VisitBitBlocks. now apply VisitBitBlocks_while_provenance.
  - unfold VisitNullBitmapInline. now apply VisitNullBitmapInline_while_provenance.
Qed.

(** ** Empty traversals and counters that make no progress *)




(** With a counter whose runs are all empty the loops never leave a
    position before the end. *)
Lemma VisitBitBlocks_while_stuck {Cap} (bitmap : option Buffer) (offset length : Z)
      (visit_not_null : Z -> Cap -> Status * Cap) (visit_null : Cap -> Status * Cap) :
  (forall counter, block_length (fst (NextBlock counter)) <= 0) ->
  forall (fuel : nat) (counter : Counter) (position : Z) (c : Cap),
    position < length ->
    VisitBitBlocks_while bitmap offset length visit_not_null visit_null
      fuel counter position c = None.
Proof.
  intros Hstuck.
  induction fuel as [|fuel IH]; intros counter position c Hlt; simpl;
    rewrite (proj2 (Z.ltb_lt _ _) Hlt); [reflexivity|].
  pose proof (Hstuck counter) as Hempty.
  destruct (NextBlock counter) as [block counter']. simpl in Hempty.
  unfold VisitBitBlocks_block.
  replace (Z.to_nat (block_length block)) with O by lia.
  destruct (AllSet block); [|destruct (NoneSet block)]; simpl; now apply IH.
Qed.

Lemma VisitBitBlocksVoid_while_stuck {Cap} (bitmap : option Buffer) (offset length : Z)
      (visit_not_null : Z -> Cap -> Cap) (visit_null : Cap -> Cap) :
  (forall counter, block_length (fst (NextBlock counter)) <= 0) ->
  forall (fuel : nat) (counter : Counter) (position : Z) (c : Cap),
    position < length ->
    VisitBitBlocksVoid_while bitmap offset length visit_not_null visit_null
      fuel counter position c = None.
Proof.
  intros Hstuck.
  induction fuel as [|fuel IH]; intros counter position c Hlt; simpl;
    rewrite (proj2 (Z.ltb_lt _ _) Hlt); [reflexivity|].
  pose proof (Hstuck counter) as Hempty.
  destruct (NextBlock counter) as [block counter']. simpl in Hempty.
  unfold VisitBitBlocksVoid_block.
  replace (Z.to_nat (block_length block)) with O by lia.
  destruct (AllSet block); [|destruct (NoneSet block)]; simpl; now apply IH.
Qed.

Lemma VisitNullBitmapInline_while_stuck {Cap} (valid_bits : option Buffer)
      (num_values : Z) (func : bool -> Cap -> Status * Cap) :
  (forall counter, block_length (fst (NextBlock counter)) <= 0) ->
  forall (fuel : nat) (counter : Counter) (position offset_position : Z) (c : Cap),
    position < num_values ->
    VisitNullBitmapInline_while valid_bits num_values func
      fuel counter position offset_position c = None.
Proof.
  intros Hstuck.
  induction fuel as [|fuel IH]; intros counter position offset_position c Hlt; simpl;
    rewrite (proj2 (Z.ltb_lt _ _) Hlt); [reflexivity|].
  pose proof (Hstuck counter) as Hempty.
  destruct (NextBlock counter) as [block counter']. simpl in Hempty.
  unfold VisitNullBitmapInline_block.
  replace (Z.to_nat (block_length block)) with O by lia.
  destruct (AllSet block); [|destruct (NoneSet block)]; simpl; apply IH; lia.
Qed.

Lemma VisitNullBitmapInlineVoid_while_stuck {Cap} (valid_bits : option Buffer)
      (num_values : Z) (func : bool -> Cap -> Cap) :
  (forall counter, block_length (fst (NextBlock counter)) <= 0) ->
  forall (fuel : nat) (counter : Counter) (position offset_position : Z) (c : Cap),
    position < num_values ->
    VisitNullBitmapInlineVoid_while valid_bits num_values func
      fuel counter position offset_position c = None.
Proof.
  intros Hstuck.
  induction fuel as [|fuel IH]; intros counter position offset_position c Hlt; simpl;
    rewrite (proj2 (Z.ltb_lt _ _) Hlt); [reflexivity|].
  pose proof (Hstuck counter) as Hempty.
  destruct (NextBlock counter) as [block counter']. simpl in Hempty.
  unfold VisitNullBitmapInlineVoid_block.
  replace (Z.to_nat (block_length block)) with O by lia.
  destruct (AllSet block); [|destruct (NoneSet block)]; simpl; apply IH; lia.
Qed.

(** X7.  The loops end only through the counter's progress.  They leave
    [while (position < length)] when the run lengths have carried
    [position] to [length], and check nothing else: with a counter that
    reports only empty runs and a length above zero, none of the four loops
    returns, however much fuel it is given. *)
Theorem traversal_needs_counter_progress
        {Cap} (bitmap : option Buffer) (offset length null_count : Z)
        (visit_not_null : Z -> Cap -> Status * Cap) (visit_null : Cap -> Status * Cap)
        (visit_not_null_void : Z -> Cap -> Cap) (visit_null_void : Cap -> Cap)
        (func : bool -> Cap -> Status * Cap) (func_void : bool -> Cap -> Cap)
        (fuel : nat) (c : Cap) :
  (forall counter, block_length (fst (NextBlock counter)) <= 0) ->
  0 < length ->
  VisitBitBlocks bitmap offset length visit_not_null visit_null fuel c = None
  /\ VisitBitBlocksVoid bitmap offset length visit_not_null_void visit_null_void
       fuel c = None
  /\ VisitNullBitmapInline bitmap offset length null_count func fuel c = None
  /\ VisitNullBitmapInlineVoid bitmap offset length null_count func_void fuel c
     = None.
Proof.
  intros Hstuck Hlength. repeat split.
  - unfold VisitBitBlocks. now apply VisitBitBlocks_while_stuck.
  - unfold VisitBitBlocksVoid. now apply VisitBitBlocksVoid_while_stuck.
  - unfold VisitNullBitmapInline. now apply VisitNullBitmapInline_while_stuck.
  - unfold VisitNullBitmapInlineVoid. now apply VisitNullBitmapInlineVoid_while_stuck.
Qed.

(** ** Failing fast, for the validity traversal and the value traversals *)

Lemma run_status_traced_value_ok {A Cap} (func : A -> Cap -> Status * Cap)
      (v : Z -> A) (ps : list Z) :
  forall (c c1 : Cap) (log : list A),
    run_status (map (fun i => func (v i)) ps) c = (Status.OK, c1) ->
    run_status (map (fun i => traced_value func (v i)) ps) (c, log)
    = (Status.OK, (c1, log ++ map v ps)).
Proof.
  induction ps as [|i ps IH]; intros c c1 log; simpl.
  - intros [= <-]. now rewrite app_nil_r.
  - unfold traced_value at 1. simpl.
    destruct (func (v i) c) as [st c0].
    destruct (Status.ok st) eqn:Hok; [|intros [= -> _]; discriminate].
    intros Hrun. rewrite (IH _ _ _ Hrun). now rewrite <- app_assoc.
Qed.

(** A scan whose call for position [k] is the first to fail: it returns that
    failure, and its traced run has logged positions [0 .. k] only. *)
Lemma run_status_fails_fast {A Cap} (func : A -> Cap -> Status * Cap)
      (v : Z -> A) (length k : Z) (c ck ck' : Cap) (st : Status) :
  0 <= k < length ->
  run_status (map (fun i => func (v i)) (all_positions k)) c = (Status.OK, ck) ->
  func (v k) ck = (st, ck') ->
  Status.ok st = false ->
  run_status (map (fun i => func (v i)) (all_positions length)) c = (st, ck')
  /\ run_status (map (fun i => traced_value func (v i)) (all_positions length)) (c, [])
     = (st, (ck', map v (all_positions (k + 1)))).
Proof.
  intros Hk Hbefore Hcall Hfail.
  rewrite (all_positions_split length k Hk). split.
  - exact (run_status_first_failure
             (calls := fun i => func (v i)) _ Hbefore Hcall Hfail).
  - apply (run_status_first_failure
             (calls := fun i => traced_value func (v i)) _
             (run_status_traced_value_ok func v _ _ _ [] Hbefore)); [|exact Hfail].
    unfold traced_value. simpl. rewrite Hcall.
    rewrite all_positions_succ, map_app by lia. reflexivity.
Qed.

(** X8.  [VisitNullBitmapInline] fails fast.  Under the counter's contract,
    if [func] accepts the validity of positions [0 .. k - 1] and returns a
    failure [st] for position [k], the traversal returns [st] itself in the
    state that call left, and [func] has been called [k + 1] times, with
    the validity of positions [0 .. k] in order. *)
Theorem VisitNullBitmapInline_fails_fast
        {Cap} (valid_bits : option Buffer) (valid_bits_offset num_values null_count : Z)
        (func : bool -> Cap -> Status * Cap)
        (fuel : nat) (c : Cap) (k : Z) (st : Status) (ck ck' : Cap) :
  scanner_contract valid_bits valid_bits_offset num_values ->
  (Z.to_nat num_values <= fuel)%nat ->
  0 <= k < num_values ->
  run_status
    (map (fun i => func (is_valid valid_bits valid_bits_offset i)) (all_positions k)) c
  = (Status.OK, ck) ->
  func (is_valid valid_bits valid_bits_offset k) ck = (st, ck') ->
  Status.ok st = false ->
  VisitNullBitmapInline valid_bits valid_bits_offset num_values null_count func fuel c
  = Some (st, ck')
  /\ exists trace : list bool,
      VisitNullBitmapInline valid_bits valid_bits_offset num_values null_count
        (traced_value func) fuel (c, [])
      = Some (st, (ck', trace))
      /\ trace = map (is_valid valid_bits valid_bits_offset) (all_positions (k + 1))
      /\ Z.of_nat (List.length trace) = k + 1.
Proof.
  intros Hcontract Hfuel Hk Hbefore Hcall Hfail.
  destruct (run_status_fails_fast func (is_valid valid_bits valid_bits_offset)
              num_values k c ck ck' st Hk Hbefore Hcall Hfail) as [Hplain Htraced].
  split.
  - rewrite VisitNullBitmapInline_run by assumption. now rewrite Hplain.
  - eexists. split; [|split; [reflexivity|]].
    + rewrite VisitNullBitmapInline_run by assumption. now rewrite Htraced.
    + rewrite length_all_positions. lia.
Qed.

(** X9.  Every specialisation fails fast.  Under the counter's contract, if
    [func] accepts the optional values of positions [0 .. k - 1] and
    returns a failure [st] for position [k], then [VisitArrayDataInline]
    returns [st] itself in the state that call left, and [func] has been
    called [k + 1] times, with the optional values of positions [0 .. k] in
    order. *)
Theorem VisitArrayDataInline_fails_fast
        {T} {V : ArrayDataInlineVisitor T} {Spec : ArrayDataInlineVisitorSpec T}
        {Cap} (arr : ArrayData.t) (func : option c_type -> Cap -> Status * Cap)
        (fuel : nat) (c : Cap) (k : Z) (st : Status) (ck ck' : Cap) :
  array_scan_ok arr fuel ->
  0 <= k < ArrayData.length arr ->
  run_status
    (map (fun i => func (optional_at arr value_at i)) (all_positions k)) c
  = (Status.OK, ck) ->
  func (optional_at arr value_at k) ck = (st, ck') ->
  Status.ok st = false ->
  VisitArrayDataInline arr func fuel c = Some (st, ck')
  /\ exists trace : list (option c_type),
      VisitArrayDataInline arr (traced_value func) fuel (c, [])
      = Some (st, (ck', trace))
      /\ trace = map (optional_at arr value_at) (all_positions (k + 1))
      /\ Z.of_nat (List.length trace) = k + 1.
Proof.
  intros Hscan Hk Hbefore Hcall Hfail.
  destruct (run_status_fails_fast func (optional_at arr value_at)
              (ArrayData.length arr) k c ck ck' st Hk Hbefore Hcall Hfail)
    as [Hplain Htraced].
  unfold VisitArrayDataInline. split.
  - rewrite VisitStatus_scan by assumption. now rewrite Hplain.
  - eexists. split; [|split; [reflexivity|]].
    + rewrite VisitStatus_scan by assumption. now rewrite Htraced.
    + rewrite length_all_positions. lia.
Qed.

(** ** Traversals in pieces *)

Lemma all_positions_add (n m : Z) :
  0 <= n -> 0 <= m ->
  all_positions (n + m) = all_positions n ++ positions (Z.to_nat m) n.
Proof.
  intros Hn Hm. unfold all_positions.
  rewrite Z2Nat.inj_add, positions_app by assumption.
  simpl. now rewrite Z2Nat.id.
Qed.

(** The positions of a second piece, numbered from the start of the piece. *)
Lemma map_positions_from {B} (f : Z -> B) (m : nat) (n : Z) :
  map f (positions m n) = map (fun i => f (n + i)) (positions m 0).
Proof.
  rewrite <- (Z.add_0_l n) at 1. rewrite positions_shift.
  apply map_ext. intros i. f_equal. lia.
Qed.

Lemma is_valid_shift (bitmap : option Buffer) (offset n i : Z) :
  is_valid bitmap (offset + n) i = is_valid bitmap offset (n + i).
Proof. unfold is_valid. destruct bitmap; [|reflexivity]. f_equal. lia. Qed.

(** X10.  A traversal can be made in two pieces.  Under the counter's
    contract for the whole range and for each piece, visiting [n + m]
    positions from bit [offset] is visiting the first [n] and, when that
    succeeds, visiting [m] positions from bit [offset + n] in the state the
    first visit left, the positions of the second piece being numbered from
    [n]; a failure in the first piece is the result.  This holds for
    [VisitBitBlocks] and for [VisitNullBitmapInline]. *)
Theorem traversal_in_two_pieces
        {Cap} (bitmap : option Buffer) (offset n m null_count : Z)
        (visit_not_null : Z -> Cap -> Status * Cap) (visit_null : Cap -> Status * Cap)
        (func : bool -> Cap -> Status * Cap) (fuel : nat) (c : Cap) :
  0 <= n -> 0 <= m ->
  scanner_contract bitmap offset (n + m) ->
  scanner_contract bitmap offset n ->
  scanner_contract bitmap (offset + n) m ->
  (Z.to_nat (n + m) <= fuel)%nat ->
  VisitBitBlocks bitmap offset (n + m) visit_not_null visit_null fuel c
  = match VisitBitBlocks bitmap offset n visit_not_null visit_null fuel c with
    | Some (st, c1) =>
        if Status.ok st then
          VisitBitBlocks bitmap (offset + n) m
            (fun i => visit_not_null (n + i)) visit_null fuel c1
        else Some (st, c1)
    | None => None
    end
  /\ VisitNullBitmapInline bitmap offset (n + m) null_count func fuel c
     = match VisitNullBitmapInline bitmap offset n null_count func fuel c with
       | Some (st, c1) =>
           if Status.ok st then
             VisitNullBitmapInline bitmap (offset + n) m null_count func fuel c1
           else Some (st, c1)
       | None => None
       end.
Proof.
  intros Hn Hm Hwhole Hfirst Hsecond Hfuel.
  assert (Hfuel_n : (Z.to_nat n <= fuel)%nat) by lia.
  assert (Hfuel_m : (Z.to_nat m <= fuel)%nat) by lia.
  split.
  - rewrite (VisitBitBlocks_run _ _ _ _ _ _ _ Hwhole Hfuel).
    rewrite (VisitBitBlocks_run _ _ _ _ _ _ _ Hfirst Hfuel_n).
    rewrite (all_positions_add n m Hn Hm), map_app, run_status_app.
    destruct (run_status _ c) as [st c1]. destruct (Status.ok st); [|reflexivity].
    rewrite (VisitBitBlocks_run _ _ _ _ _ _ _ Hsecond Hfuel_m).
    rewrite map_positions_from. do 2 f_equal. apply map_ext. intros i.
    unfold call_at. now rewrite is_valid_shift.
  - rewrite (VisitNullBitmapInline_run _ _ _ _ _ _ _ Hwhole Hfuel).
    rewrite (VisitNullBitmapInline_run _ _ _ _ _ _ _ Hfirst Hfuel_n).
    rewrite (all_positions_add n m Hn Hm), map_app, run_status_app.
    destruct (run_status _ c) as [st c1]. destruct (Status.ok st); [|reflexivity].
    rewrite (VisitNullBitmapInline_run _ _ _ _ _ _ _ Hsecond Hfuel_m).
    rewrite map_positions_from. do 2 f_equal. apply map_ext. intros i.
    now rewrite is_valid_shift.
Qed.

(** ** Counting with the validity traversal *)

Lemma run_void_count_validity (valid : Z -> bool) (ps : list Z) (counts : Z * Z) :
  run_void (map (fun i => count_validity (valid i)) ps) counts
  = (fst counts + Z.of_nat (List.length (filter valid ps)),
     snd counts
     + (Z.of_nat (List.length ps) - Z.of_nat (List.length (filter valid ps)))).
Proof.
  revert counts; induction ps as [|i ps IH]; intros [valids nulls].
  - simpl. f_equal; lia.
  - cbn [map run_void filter]. rewrite IH. unfold count_validity.
    destruct (valid i); cbn [fst snd List.length];
      rewrite ?Nat2Z.inj_succ; f_equal; lia.
Qed.

(** X11.  Counting with [VisitNullBitmapInline].  Under the counter's
    contract, the void traversal run with a callback that counts the
    [true] and the [false] it is handed ends, from zero, with the number of
    valid positions of the range and with the length less that number: the
    two counts add up to the length, and the second is the null count of
    the range, whatever [null_count] was passed. *)
Theorem VisitNullBitmapInline_counts_valid_and_null
        (valid_bits : option Buffer) (valid_bits_offset num_values null_count : Z)
        (fuel : nat) :
  scanner_contract valid_bits valid_bits_offset num_values ->
  (Z.to_nat num_values <= fuel)%nat ->
  0 <= num_values ->
  VisitNullBitmapInlineVoid valid_bits valid_bits_offset num_values null_count
    count_validity fuel (0, 0)
  = Some (count_valid valid_bits valid_bits_offset num_values,
          num_values - count_valid valid_bits valid_bits_offset num_values)
  /\ 0 <= count_valid valid_bits valid_bits_offset num_values <= num_values.
Proof.
  intros Hcontract Hfuel Hlength. split.
  - rewrite VisitNullBitmapInlineVoid_run by assumption.
    rewrite (run_void_count_validity (is_valid valid_bits valid_bits_offset)).
    unfold count_valid, all_positions. rewrite positions_length. simpl.
    do 2 f_equal. lia.
  - unfold count_valid.
    pose proof (filter_length_le (is_valid valid_bits valid_bits_offset)
                                 (all_positions num_values)) as Hle.
    unfold all_positions in *. rewrite positions_length in Hle. lia.
Qed.

(** ** Slices *)

Lemma firstn_skipn_all_positions {B} (f : Z -> B) (length o l : Z) :
  0 <= o -> 0 <= l -> o + l <= length ->
  firstn (Z.to_nat l) (skipn (Z.to_nat o) (map f (all_positions length)))
  = map (fun i => f (o + i)) (all_positions l).
Proof.
  intros Ho Hl Hfit.
  replace length with (o + (l + (length - o - l))) by lia.
  rewrite (all_positions_add o _ Ho) by lia.
  rewrite Z2Nat.inj_add, positions_app by lia.
  rewrite !map_app. unfold all_positions.
  rewrite skipn_app, skipn_all2 by (rewrite length_map, positions_length; lia).
  rewrite length_map, positions_length, Nat.sub_diag. cbn [app skipn].
  rewrite firstn_app, firstn_all2 by (rewrite length_map, positions_length; lia).
  rewrite length_map, positions_length, Nat.sub_diag. cbn [firstn].
  rewrite app_nil_r. apply map_positions_from.
Qed.

(** The log of a slice against the log of the array it is cut from. *)
Lemma slice_log {B} (whole piece : ArrayData.t)
      (value_whole value_piece : ArrayData.t -> Z -> B) (o : Z) :
  (forall i, optional_at piece value_piece i = optional_at whole value_whole (o + i)) ->
  0 <= o -> 0 <= ArrayData.length piece ->
  o + ArrayData.length piece <= ArrayData.length whole ->
  map (optional_at piece value_piece) (all_positions (ArrayData.length piece))
  = firstn (Z.to_nat (ArrayData.length piece))
      (skipn (Z.to_nat o)
         (map (optional_at whole value_whole)
              (all_positions (ArrayData.length whole)))).
Proof.
  intros Hvalue Ho Hl Hfit.
  rewrite firstn_skipn_all_positions by assumption.
  apply map_ext. exact Hvalue.
Qed.

(** What a slice reads at position [i] is what the array it is cut from
    reads at position [o + i], for each layout. *)
Lemma slice_optional_at (whole piece : ArrayData.t) (o : Z) (data : Buffer) :
  same_storage whole piece ->
  ArrayData.offset piece = ArrayData.offset whole + o ->
  ArrayData.buffer whole 1 = Some data ->
  forall i,
    optional_at piece value_at_c_type i = optional_at whole value_at_c_type (o + i)
    /\ optional_at piece value_at_boolean i = optional_at whole value_at_boolean (o + i)
    /\ optional_at piece value_at_binary i = optional_at whole value_at_binary (o + i)
    /\ optional_at piece value_at_fixed_size_binary i
       = optional_at whole value_at_fixed_size_binary (o + i).
Proof.
  intros [Htype Hbuffers] Hoffset Hdata i.
  unfold optional_at, validity, value_at_c_type, value_at_boolean, value_at_binary,
    value_at_fixed_size_binary, offsets_at, binary_data,
    ArrayData.GetValues_absolute, ArrayData.buffer in *.
  rewrite <- Hbuffers, <- Htype, Hoffset, is_valid_shift, Hdata.
  replace (ArrayData.offset whole + o + i)
    with (ArrayData.offset whole + (o + i)) by lia.
  replace (ArrayData.offset whole + o + (i + 1))
    with (ArrayData.offset whole + (o + i + 1)) by lia.
  repeat split.
  destruct (is_valid _ _ _); [|reflexivity].
  unfold ptr_add; simpl. do 3 f_equal. ring.
Qed.

(** X12.  A slice is visited as the part of the array it is cut from.  For
    two arrays over the same type and buffers, the second starting [o]
    elements into the first and ending within it, under the counter's
    contract for both: for each of the four specialisations, the optional
    values [VisitVoid] hands out for the slice are those it hands out for
    the whole array at positions [o .. o + length - 1], in the same order.
    The arrays have a buffer 1: the fixed-size binary visitor computes its
    views from the start of that buffer. *)
Theorem slice_is_visited_as_part_of_whole
        (whole piece : ArrayData.t) (o : Z) (data : Buffer)
        (fuel_whole fuel_piece : nat) :
  same_storage whole piece ->
  ArrayData.offset piece = ArrayData.offset whole + o ->
  ArrayData.buffer whole 1 = Some data ->
  0 <= o -> 0 <= ArrayData.length piece ->
  o + ArrayData.length piece <= ArrayData.length whole ->
  array_scan_ok whole fuel_whole ->
  array_scan_ok piece fuel_piece ->
  let part {B} (log : list B) :=
    firstn (Z.to_nat (ArrayData.length piece)) (skipn (Z.to_nat o) log) in
  (exists log_whole log_piece,
      VisitVoid_c_type whole record_void fuel_whole [] = Some log_whole
      /\ VisitVoid_c_type piece record_void fuel_piece [] = Some log_piece
      /\ log_piece = part log_whole)
  /\ (exists log_whole log_piece,
         VisitVoid_boolean whole record_void fuel_whole [] = Some log_whole
         /\ VisitVoid_boolean piece record_void fuel_piece [] = Some log_piece
         /\ log_piece = part log_whole)
  /\ (exists log_whole log_piece,
         VisitVoid_binary whole record_void fuel_whole [] = Some log_whole
         /\ VisitVoid_binary piece record_void fuel_piece [] = Some log_piece
         /\ log_piece = part log_whole)
  /\ (exists log_whole log_piece,
         VisitVoid_fixed_size_binary whole record_void fuel_whole [] = Some log_whole
         /\ VisitVoid_fixed_size_binary piece record_void fuel_piece []
            = Some log_piece
         /\ log_piece = part log_whole).
Proof.
  intros Hstorage Hoffset Hdata Ho Hl Hfit Hwhole Hpiece part.
  pose proof (slice_optional_at whole piece o data Hstorage Hoffset Hdata) as Hvalue.
  split; [|split; [|split]]; do 2 eexists; (split; [|split]).
  - exact (VisitVoid_record (T := has_c_type) whole fuel_whole Hwhole).
  - exact (VisitVoid_record (T := has_c_type) piece fuel_piece Hpiece).
  - apply slice_log; try assumption. intros i. apply (Hvalue i).
  - exact (VisitVoid_record (T := is_boolean) whole fuel_whole Hwhole).
  - exact (VisitVoid_record (T := is_boolean) piece fuel_piece Hpiece).
  - apply slice_log; try assumption. intros i. apply (Hvalue i).
  - exact (VisitVoid_record (T := base_binary) whole fuel_whole Hwhole).
  - exact (VisitVoid_record (T := base_binary) piece fuel_piece Hpiece).
  - apply slice_log; try assumption. intros i. apply (Hvalue i).
  - exact (VisitVoid_record (T := fixed_size_binary) whole fuel_whole Hwhole).
  - exact (VisitVoid_record (T := fixed_size_binary) piece fuel_piece Hpiece).
  - apply slice_log; try assumption. intros i. apply (Hvalue i).
Qed.

(** ** What the value visitors read *)

(** X13.  What lies under a null is not handed out.  For every
    specialisation, two arrays with the same validity bitmap, offset and
    length whose values agree at the valid positions are visited alike,
    under the counter's contract: [VisitArrayDataInline] returns the same
    result in the same callback state for both, in the status form and in
    the void form, whatever the arrays hold at null positions. *)
Theorem values_under_nulls_are_not_visited
        {T} {V : ArrayDataInlineVisitor T} {Spec : ArrayDataInlineVisitorSpec T}
        {Cap} (a b : ArrayData.t)
        (func : option c_type -> Cap -> Status * Cap)
        (func_void : option c_type -> Cap -> Cap) (fuel : nat) (c : Cap) :
  validity a = validity b ->
  ArrayData.offset a = ArrayData.offset b ->
  ArrayData.length a = ArrayData.length b ->
  (forall i, 0 <= i < ArrayData.length a ->
             is_valid (validity a) (ArrayData.offset a) i = true ->
             value_at a i = value_at b i) ->
  array_scan_ok a fuel ->
  VisitArrayDataInline a func fuel c = VisitArrayDataInline b func fuel c
  /\ VisitArrayDataInlineVoid a func_void fuel c
     = VisitArrayDataInlineVoid b func_void fuel c.
Proof.
  intros Hvalidity Hoffset Hlength Hvalues Ha.
  assert (Hb : array_scan_ok b fuel).
  { unfold array_scan_ok in *. now rewrite <- Hvalidity, <- Hoffset, <- Hlength. }
  assert (Hsame : forall i, 0 <= i < 0 + Z.of_nat (Z.to_nat (ArrayData.length a)) ->
                            optional_at a value_at i = optional_at b value_at i).
  { intros i Hi. unfold optional_at. rewrite <- Hvalidity, <- Hoffset.
    destruct (is_valid (validity a) (ArrayData.offset a) i) eqn:Hvalid;
      [|reflexivity].
    rewrite Hvalues by (assumption || lia). reflexivity. }
  unfold VisitArrayDataInline, VisitArrayDataInlineVoid.
  rewrite !VisitStatus_scan, !VisitVoid_scan by assumption.
  rewrite <- Hlength. unfold all_positions.
  split; do 2 f_equal; apply map_positions_ext; intros i Hi; now rewrite Hsame.
Qed.

(** X14.  The values of the numeric and the boolean visitor.  Under the
    counter's contract, for an array with a buffer 1, the numeric visitor
    hands out for a valid position [i] element [offset + i] of that
    buffer, and the boolean visitor bit [offset + i] of it. *)
Theorem numeric_and_boolean_value_at_position
        (arr : ArrayData.t) (values : Buffer) (fuel : nat) (i : Z) :
  ArrayData.buffer arr 1 = Some values ->
  array_scan_ok arr fuel ->
  0 <= i < ArrayData.length arr ->
  is_valid (validity arr) (ArrayData.offset arr) i = true ->
  (exists trace : list (option Z),
      VisitStatus_c_type arr record_status fuel [] = Some (Status.OK, trace)
      /\ VisitVoid_c_type arr record_void fuel [] = Some trace
      /\ List.length trace = Z.to_nat (ArrayData.length arr)
      /\ nth (Z.to_nat i) trace None = Some (elem values (ArrayData.offset arr + i)))
  /\ (exists trace : list (option bool),
         VisitStatus_boolean arr record_status fuel [] = Some (Status.OK, trace)
         /\ VisitVoid_boolean arr record_void fuel [] = Some trace
         /\ List.length trace = Z.to_nat (ArrayData.length arr)
         /\ nth (Z.to_nat i) trace None
            = Some (GetBit (Some values) (ArrayData.offset arr + i))).
Proof.
  intros Hvalues Hscan Hi Hvalid. split.
  - exists (map (optional_at arr value_at_c_type) (all_positions (ArrayData.length arr))).
    split; [|split; [|split]].
    + exact (VisitStatus_record (T := has_c_type) arr fuel Hscan).
    + exact (VisitVoid_record (T := has_c_type) arr fuel Hscan).
    + apply length_all_positions.
    + rewrite nth_all_positions by assumption.
      unfold optional_at, value_at_c_type. now rewrite Hvalid, Hvalues.
  - exists (map (optional_at arr value_at_boolean) (all_positions (ArrayData.length arr))).
    split; [|split; [|split]].
    + exact (VisitStatus_record (T := is_boolean) arr fuel Hscan).
    + exact (VisitVoid_record (T := is_boolean) arr fuel Hscan).
    + apply length_all_positions.
    + rewrite nth_all_positions by assumption.
      unfold optional_at, value_at_boolean. now rewrite Hvalid, Hvalues.
Qed.

(** ** Views do not overlap *)

(** X15.  The views of a fixed-size binary array do not overlap.  Under the
    counter's contract, for an array with a data buffer and a byte width
    [w] that is not negative, the views handed out for two valid positions
    [i < j] lie in the same buffer and the first ends, [w] bytes after its
    start, at or before the start of the second. *)
Theorem fixed_size_binary_views_do_not_overlap
        (arr : ArrayData.t) (records : Buffer) (fuel : nat) (i j : Z) :
  let byte_width := DataType.byte_width (ArrayData.type arr) in
  ArrayData.buffer arr 1 = Some records ->
  array_scan_ok arr fuel ->
  0 <= i -> i < j -> j < ArrayData.length arr ->
  is_valid (validity arr) (ArrayData.offset arr) i = true ->
  is_valid (validity arr) (ArrayData.offset arr) j = true ->
  0 <= byte_width < 2 ^ 64 ->
  exists (trace : list (option string_view)) (view_i view_j : string_view),
    VisitVoid_fixed_size_binary arr record_void fuel [] = Some trace
    /\ nth (Z.to_nat i) trace None = Some view_i
    /\ nth (Z.to_nat j) trace None = Some view_j
    /\ base (sv_data view_i) = base (sv_data view_j)
    /\ sv_size view_i = byte_width
    /\ index (sv_data view_i) + sv_size view_i <= index (sv_data view_j).
Proof.
  intros byte_width Hrecords Hscan Hi Hij Hj Hvalid_i Hvalid_j Hwidth.
  exists (map (optional_at arr value_at_fixed_size_binary)
              (all_positions (ArrayData.length arr))),
    (value_at_fixed_size_binary arr i), (value_at_fixed_size_binary arr j).
  split; [exact (VisitVoid_record (T := fixed_size_binary) arr fuel Hscan)|].
  rewrite !nth_all_positions by lia.
  unfold optional_at. rewrite Hvalid_i, Hvalid_j.
  unfold value_at_fixed_size_binary, ArrayData.GetValues_absolute.
  fold byte_width. rewrite Hrecords, to_size_t_small by assumption.
  unfold ptr_add; simpl. repeat split. nia.
Qed.

(** Offsets that do not decrease from one entry to the next do not decrease
    over a range. *)
Lemma offsets_at_monotone (arr : ArrayData.t) (i : Z) (n : nat) :
  (forall k, i <= k < i + Z.of_nat n -> offsets_at arr k <= offsets_at arr (k + 1)) ->
  offsets_at arr i <= offsets_at arr (i + Z.of_nat n).
Proof.
  induction n as [|n IH]; intros Hstep.
  - rewrite Z.add_0_r. lia.
  - assert (Hn : offsets_at arr i <= offsets_at arr (i + Z.of_nat n))
      by (apply IH; intros k Hk; apply Hstep; lia).
    pose proof (Hstep (i + Z.of_nat n) ltac:(lia)) as Hlast.
    replace (i + Z.of_nat (S n)) with (i + Z.of_nat n + 1) by lia. lia.
Qed.

(** X16.  The views of a variable-length binary array do not overlap.  Under
    the counter's contract, when the offsets of positions [i .. j] do not
    decrease (and the extent of [i] fits [size_t]), the views handed out for
    two valid positions [i < j] have the same base and the first ends at or
    before the start of the second. *)
Theorem binary_views_do_not_overlap
        (arr : ArrayData.t) (fuel : nat) (i j : Z) :
  array_scan_ok arr fuel ->
  0 <= i -> i < j -> j < ArrayData.length arr ->
  is_valid (validity arr) (ArrayData.offset arr) i = true ->
  is_valid (validity arr) (ArrayData.offset arr) j = true ->
  (forall k, i <= k < j -> offsets_at arr k <= offsets_at arr (k + 1)) ->
  offsets_at arr (i + 1) - offsets_at arr i < 2 ^ 64 ->
  exists (trace : list (option string_view)) (view_i view_j : string_view),
    VisitVoid_binary arr record_void fuel [] = Some trace
    /\ nth (Z.to_nat i) trace None = Some view_i
    /\ nth (Z.to_nat j) trace None = Some view_j
    /\ base (sv_data view_i) = base (sv_data view_j)
    /\ sv_size view_i = offsets_at arr (i + 1) - offsets_at arr i
    /\ index (sv_data view_i) + sv_size view_i <= index (sv_data view_j).
Proof.
  intros Hscan Hi Hij Hj Hvalid_i Hvalid_j Hstep Hfits.
  exists (map (optional_at arr value_at_binary) (all_positions (ArrayData.length arr))),
    (value_at_binary arr i), (value_at_binary arr j).
  split; [exact (VisitVoid_record (T := base_binary) arr fuel Hscan)|].
  rewrite !nth_all_positions by lia.
  unfold optional_at. rewrite Hvalid_i, Hvalid_j.
  pose proof (Hstep i ltac:(lia)) as Hfirst.
  pose proof (offsets_at_monotone arr (i + 1) (Z.to_nat (j - i - 1))) as Hrest.
  replace (i + 1 + Z.of_nat (Z.to_nat (j - i - 1))) with j in Hrest by lia.
  assert (Hle : offsets_at arr (i + 1) <= offsets_at arr j)
    by (apply Hrest; intros k Hk; apply Hstep; lia).
  unfold value_at_binary. simpl.
  rewrite to_size_t_small by lia.
  repeat split. lia.
Qed.

(** ** One visitor call at most *)

(** A [switch] takes the default, no label being the scrutinee, or the body
    of a case whose label is the scrutinee. *)
Lemma switch_cases {A} (scrutinee : Z) (ACTION : TypeClass.t -> Z * A)
      (classes : list TypeClass.t) (default : A) :
  ((forall TYPE_CLASS, In TYPE_CLASS classes -> fst (ACTION TYPE_CLASS) <> scrutinee)
   /\ switch scrutinee (map ACTION classes) default = default)
  \/ (exists TYPE_CLASS,
         fst (ACTION TYPE_CLASS) = scrutinee
         /\ switch scrutinee (map ACTION classes) default = snd (ACTION TYPE_CLASS)).
Proof.
  induction classes as [|a classes IH]; simpl.
  - left. split; [tauto | reflexivity].
  - destruct (ACTION a) as [label body] eqn:Haction.
    destruct (Z.eqb_spec scrutinee label) as [Heq|Hne].
    + right. exists a. rewrite Haction. simpl. split; congruence.
    + destruct IH as [[Hnone Hdefault]|Hsome]; [left | right; exact Hsome].
      split; [|exact Hdefault].
      intros TYPE_CLASS [<-|Hin]; [rewrite Haction; simpl; congruence | auto].
Qed.

(** X17.  A dispatcher makes one visitor call or none.  Whatever the tags
    of the classes are, [VisitTypeInline] either returns what the visitor's
    method for one class returns, the tag of that class being the tag of
    the type, or returns "not implemented" in the visitor's state as it
    was, the tag of the type being the tag of no class; and the same holds
    for [VisitArrayInline] and [VisitScalarInline]. *)
Theorem dispatchers_make_one_call_or_none
        {Cap} (type : DataType.t) (array : Array.t) (scalar : Scalar.t)
        (type_visitor : TypeVisitor DataType.t Cap)
        (array_visitor : TypeVisitor Array.t Cap)
        (scalar_visitor : TypeVisitor Scalar.t Cap) (c : Cap) :
  (((forall TYPE_CLASS, type_id TYPE_CLASS <> DataType.id type)
    /\ VisitTypeInline type type_visitor c
       = (Status.NotImplemented "Type not implemented", c))
   \/ exists TYPE_CLASS,
      type_id TYPE_CLASS = DataType.id type
      /\ VisitTypeInline type type_visitor c = type_visitor TYPE_CLASS type c)
  /\ (((forall TYPE_CLASS, type_id TYPE_CLASS <> Array.type_id array)
       /\ VisitArrayInline array array_visitor c
          = (Status.NotImplemented "Type not implemented", c))
      \/ exists TYPE_CLASS,
         type_id TYPE_CLASS = Array.type_id array
         /\ VisitArrayInline array array_visitor c = array_visitor TYPE_CLASS array c)
  /\ (((forall TYPE_CLASS, type_id TYPE_CLASS <> DataType.id (Scalar.type scalar))
       /\ VisitScalarInline scalar scalar_visitor c
          = (Status.NotImplemented
               ("Scalar visitor for type not implemented "
                  ++ DataType.ToString (Scalar.type scalar)), c))
      \/ exists TYPE_CLASS,
         type_id TYPE_CLASS = DataType.id (Scalar.type scalar)
         /\ VisitScalarInline scalar scalar_visitor c
            = scalar_visitor TYPE_CLASS scalar c).
Proof.
  unfold VisitTypeInline, VisitArrayInline, VisitScalarInline.
  rewrite (ARROW_GENERATE_FOR_ALL_TYPES_map (TYPE_VISIT_INLINE type type_visitor c)),
    (ARROW_GENERATE_FOR_ALL_TYPES_map (ARRAY_VISIT_INLINE array array_visitor c)),
    (ARROW_GENERATE_FOR_ALL_TYPES_map (SCALAR_VISIT_INLINE scalar scalar_visitor c)).
  split; [|split];
    match goal with
    | |- context [switch ?tag (map ?ACTION ?classes) ?default] =>
        destruct (switch_cases tag ACTION classes default)
          as [[Hnone Hdefault]|(TYPE_CLASS & Htag & Hcase)]
    end;
    try (left; split;
         [intros TYPE_CLASS;
          apply (Hnone TYPE_CLASS (ARROW_GENERATE_FOR_ALL_TYPES_total TYPE_CLASS))
         | exact Hdefault]);
    right; exists TYPE_CLASS; split; assumption.
Qed.

(** ** The validity traversal as a value traversal *)

(** X18.  [VisitNullBitmapInline] is [VisitBitBlocks] for callbacks that do
    not look at the position.  Under the counter's contract, the validity
    traversal with [func] returns, in both forms, what the value traversal
    returns with [func(true)] as its not-null callback and [func(false)] as
    its null callback. *)
Theorem VisitNullBitmapInline_is_VisitBitBlocks
        {Cap} (valid_bits : option Buffer) (valid_bits_offset num_values null_count : Z)
        (func : bool -> Cap -> Status * Cap) (func_void : bool -> Cap -> Cap)
        (fuel : nat) (c : Cap) :
  scanner_contract valid_bits valid_bits_offset num_values ->
  (Z.to_nat num_values <= fuel)%nat ->
  VisitNullBitmapInline valid_bits valid_bits_offset num_values null_count func fuel c
  = VisitBitBlocks valid_bits valid_bits_offset num_values
      (fun _ => func true) (func false) fuel c
  /\ VisitNullBitmapInlineVoid valid_bits valid_bits_offset num_values null_count
       func_void fuel c
     = VisitBitBlocksVoid valid_bits valid_bits_offset num_values
         (fun _ => func_void true) (func_void false) fuel c.
Proof.
  intros Hcontract Hfuel.
  rewrite VisitNullBitmapInline_run, VisitNullBitmapInlineVoid_run,
    VisitBitBlocks_run, VisitBitBlocksVoid_run by assumption.
  split; do 2 f_equal; apply map_ext; intros i; unfold call_at;
    now destruct (is_valid valid_bits valid_bits_offset i).
Qed.

End VisitorInline.

Arguments Covers {Counter} NextBlock GetBit bitmap offset length _ _.
Arguments scanner_contract {Counter} OptionalBitBlockCounter NextBlock GetBit
  bitmap offset length.
Arguments array_scan_ok {Counter} OptionalBitBlockCounter NextBlock GetBit arr fuel.
Arguments VisitBitBlocks {Counter} OptionalBitBlockCounter NextBlock GetBit {Cap}.
Arguments VisitBitBlocksVoid {Counter} OptionalBitBlockCounter NextBlock GetBit {Cap}.
Arguments VisitNullBitmapInline {Counter} OptionalBitBlockCounter NextBlock GetBit {Cap}.
Arguments VisitNullBitmapInlineVoid {Counter} OptionalBitBlockCounter NextBlock GetBit
  {Cap}.
Arguments VisitStatus_c_type {Counter} OptionalBitBlockCounter NextBlock GetBit {Cap}.
Arguments VisitVoid_c_type {Counter} OptionalBitBlockCounter NextBlock GetBit {Cap}.
Arguments VisitStatus_boolean {Counter} OptionalBitBlockCounter NextBlock GetBit {Cap}.
Arguments VisitVoid_boolean {Counter} OptionalBitBlockCounter NextBlock GetBit {Cap}.
Arguments VisitStatus_binary {Counter} OptionalBitBlockCounter NextBlock GetBit {Cap}.
Arguments VisitVoid_binary {Counter} OptionalBitBlockCounter NextBlock GetBit {Cap}.
Arguments VisitStatus_fixed_size_binary {Counter} OptionalBitBlockCounter NextBlock
  GetBit {Cap}.
Arguments VisitVoid_fixed_size_binary {Counter} OptionalBitBlockCounter NextBlock
  GetBit {Cap}.
Arguments ArrayDataInlineVisitor_c_type {Counter} OptionalBitBlockCounter NextBlock
  GetBit.
Arguments ArrayDataInlineVisitor_boolean {Counter} OptionalBitBlockCounter NextBlock
  GetBit.
Arguments ArrayDataInlineVisitor_binary {Counter} OptionalBitBlockCounter NextBlock
  GetBit.
Arguments ArrayDataInlineVisitor_fixed_size_binary {Counter} OptionalBitBlockCounter
  NextBlock GetBit.
Arguments ArrayDataInlineVisitorSpec_c_type {Counter} OptionalBitBlockCounter
  NextBlock GetBit.
Arguments ArrayDataInlineVisitorSpec_boolean {Counter} OptionalBitBlockCounter
  NextBlock GetBit.
Arguments ArrayDataInlineVisitorSpec_binary {Counter} OptionalBitBlockCounter
  NextBlock GetBit.
Arguments ArrayDataInlineVisitorSpec_fixed_size_binary {Counter}
  OptionalBitBlockCounter NextBlock GetBit.

(** ** The word-wise counter keeps the contract *)

Lemma positions_In_range (n : nat) (start i : Z) :
  start <= i < start + Z.of_nat n -> In i (positions n start).
Proof.
  revert start; induction n as [|n IH]; intros start Hi; simpl; [lia|].
  destruct (Z.eq_dec start i) as [->|Hne]; [now left|].
  right. apply IH. lia.
Qed.

Lemma filter_all {A} (f : A -> bool) (l : list A) :
  List.length (filter f l) = List.length l -> forall x, In x l -> f x = true.
Proof.
  induction l as [|a l IH]; simpl; [tauto|].
  pose proof (filter_length_le f l) as Hle.
  destruct (f a) eqn:Hfa; simpl; intros Hlen x [<-|Hin]; auto; lia.
Qed.

Lemma filter_none {A} (f : A -> bool) (l : list A) :
  List.length (filter f l) = O -> forall x, In x l -> f x = false.
Proof.
  induction l as [|a l IH]; simpl; [tauto|].
  destruct (f a) eqn:Hfa; simpl; intros Hlen x [<-|Hin]; auto; discriminate.
Qed.

(** A run of the word-wise counter is sound for the bits it covers. *)
Lemma WordCounter_block_sound (bitmap : option Buffer) (offset position remaining : Z) :
  block_sound BitUtil.GetBit bitmap offset position
    (fst (WordCounter.NextBlock
            {| WordCounter.bitmap := bitmap;
               WordCounter.bit_offset := offset + position;
               WordCounter.bits_remaining := remaining |})).
Proof.
  unfold WordCounter.NextBlock, block_sound; simpl.
  destruct bitmap as [bits|]; [|apply Z.eqb_refl].
  set (run_length := Z.max 0 (Z.min WordCounter.kWordBits remaining)).
  unfold BitUtil.CountSetBits. split.
  - intros Hall i Hi. apply Z.eqb_eq in Hall.
    apply (filter_all (BitUtil.GetBit (Some bits))
                      (positions (Z.to_nat run_length) (offset + position))).
    + rewrite positions_length. lia.
    + apply positions_In_range. lia.
  - intros Hnone i Hi. apply Z.eqb_eq in Hnone.
    apply (filter_none (BitUtil.GetBit (Some bits))
                       (positions (Z.to_nat run_length) (offset + position))).
    + lia.
    + apply positions_In_range. lia.
Qed.

Lemma WordCounter_Covers (bitmap : option Buffer) (offset length : Z) (n : nat) :
  forall position : Z,
    (Z.to_nat (length - position) <= n)%nat ->
    Covers WordCounter.NextBlock BitUtil.GetBit bitmap offset length position
      {| WordCounter.bitmap := bitmap;
         WordCounter.bit_offset := offset + position;
         WordCounter.bits_remaining := length - position |}.
Proof.
  induction n as [|n IH]; intros position Hn.
  - apply Covers_done. lia.
  - destruct (Z_le_gt_dec length position) as [Hle|Hgt]; [now apply Covers_done|].
    pose proof (WordCounter_block_sound bitmap offset position (length - position))
      as Hsound.
    destruct (WordCounter.NextBlock _) as [block counter'] eqn:Hnext in Hsound.
    assert (Hlen : block_length block
                   = Z.min (match bitmap with
                            | Some _ => WordCounter.kWordBits
                            | None => WordCounter.kMaxBlockSize
                            end) (length - position)).
    { unfold WordCounter.NextBlock in Hnext. simpl in Hnext.
      injection Hnext as <- _. simpl.
      unfold WordCounter.kWordBits, WordCounter.kMaxBlockSize.
      destruct bitmap; lia. }
    assert (Hcounter : counter'
                       = {| WordCounter.bitmap := bitmap;
                            WordCounter.bit_offset :=
                              offset + (position + block_length block);
                            WordCounter.bits_remaining :=
                              length - (position + block_length block) |}).
    { rewrite Hlen. unfold WordCounter.NextBlock in Hnext. simpl in Hnext.
      injection Hnext as _ <-.
      unfold WordCounter.kWordBits, WordCounter.kMaxBlockSize.
      f_equal; destruct bitmap; lia. }
    assert (Hrun : 0 < block_length block <= length - position).
    { rewrite Hlen. unfold WordCounter.kWordBits, WordCounter.kMaxBlockSize.
      destruct bitmap; lia. }
    eapply Covers_step; [lia | exact Hnext | lia | lia | exact Hsound |].
    rewrite Hcounter. apply IH. lia.
Qed.

(** The contract holds for every bitmap, offset and length. *)
Lemma WordCounter_contract (bitmap : option Buffer) (offset length : Z) :
  scanner_contract WordCounter.make WordCounter.NextBlock BitUtil.GetBit
    bitmap offset length.
Proof.
  unfold scanner_contract, WordCounter.make.
  pose proof (WordCounter_Covers bitmap offset length
                (Z.to_nat length) 0) as Hcovers.
  rewrite Z.add_0_r, Z.sub_0_r in Hcovers. now apply Hcovers.
Qed.

Lemma WordCounter_array_scan_ok (arr : ArrayData.t) :
  array_scan_ok WordCounter.make WordCounter.NextBlock BitUtil.GetBit
    arr (Z.to_nat (ArrayData.length arr)).
Proof. split; [apply WordCounter_contract | lia]. Qed.

(** ** The theorems at sample inputs, run with the word-wise counter *)

(** The spec's integer scenario: a fixed-width integer array of length
    5 with validity [10110] and values [1, _, 3, 4, _], visited in void
    form with the word-wise counter, yields [Some 1, None, Some 3, Some 4,
    None] in that order. *)
Example VisitVoid_int32_scenario :
  VisitVoid_c_type WordCounter.make WordCounter.NextBlock BitUtil.GetBit Sample.int32_array record_void 5 []
  = Some [Some 1; None; Some 3; Some 4; None].
Proof. reflexivity. Qed.

(** The spec's string scenario: a string array with offsets
    [0, 3, 3, 7] over the bytes of "abcdefg", all valid, of length 3, visited
    with the word-wise counter, yields the views of abc, of the empty string
    and of defg, in that order. *)
Example VisitVoid_string_scenario :
  VisitVoid_binary WordCounter.make WordCounter.NextBlock BitUtil.GetBit Sample.string_array record_void 3 []
  = Some [Some {| sv_data := {| base := BufferData 2; index := 0 |}; sv_size := 3 |};
          Some {| sv_data := {| base := BufferData 2; index := 3 |}; sv_size := 0 |};
          Some {| sv_data := {| base := BufferData 2; index := 3 |}; sv_size := 4 |}].
Proof. reflexivity. Qed.

(** With too little fuel the model of the loop gives no result. *)
Example VisitVoid_out_of_fuel :
  VisitBitBlocksVoid WordCounter.make WordCounter.NextBlock BitUtil.GetBit (Some Sample.boundary_bitmap) 0 128
    record_not_null record_null 1 [] = None.
Proof. reflexivity. Qed.

(** C1 at validity [10110], offset 0, length 5. *)
Lemma VisitBitBlocksVoid_visits_every_position_once_witness :
  scanner_contract WordCounter.make WordCounter.NextBlock BitUtil.GetBit (Some [13]) 0 5
  /\ VisitBitBlocksVoid WordCounter.make WordCounter.NextBlock BitUtil.GetBit (Some [13]) 0 5 record_not_null record_null 5 []
     = Some [CallNotNull 0; CallNull; CallNotNull 2; CallNotNull 3; CallNull].
Proof.
  split; [apply WordCounter_contract|].
  destruct (VisitBitBlocksVoid_visits_every_position_once
           WordCounter.t WordCounter.make WordCounter.NextBlock BitUtil.GetBit (Some [13]) 0 5 record_not_null record_null 5 []
              (WordCounter_contract _ _ _) (le_n 5)) as [Hscan _].
  rewrite Hscan. reflexivity.
Defined.

(** C2 at validity [10110]: the callback for nulls fails, position 1 is the
    first null, and two calls are made. *)
Lemma VisitBitBlocks_fails_fast_witness :
  let visit_not_null := fun (i : Z) (seen : list Z) => (Status.OK, seen ++ [i]) in
  let visit_null := fun (seen : list Z) => (Status.Failure Status.Invalid "null", seen) in
  VisitBitBlocks WordCounter.make WordCounter.NextBlock BitUtil.GetBit (Some [13]) 0 5 visit_not_null visit_null 5 []
  = Some (Status.Failure Status.Invalid "null", [0])
  /\ exists trace : list Call,
      VisitBitBlocks WordCounter.make WordCounter.NextBlock BitUtil.GetBit (Some [13]) 0 5
        (traced_not_null visit_not_null) (traced_null visit_null) 5 ([], [])
      = Some (Status.Failure Status.Invalid "null", ([0], trace))
      /\ trace = map (expected_call BitUtil.GetBit (Some [13]) 0) (all_positions (1 + 1))
      /\ Z.of_nat (List.length trace) = 1 + 1.
Proof.
  intros visit_not_null visit_null.
  apply (VisitBitBlocks_fails_fast
           WordCounter.t WordCounter.make WordCounter.NextBlock BitUtil.GetBit (Some [13]) 0 5 visit_not_null visit_null 5 [] 1
           (Status.Failure Status.Invalid "null") [0] [0]).
  - apply WordCounter_contract.
  - apply le_n.
  - lia.
  - reflexivity.
  - reflexivity.
  - reflexivity.
Defined.

(** C3 at the slice of the string array: its position 1 is "defg", bytes 3
    to 7 of the unsliced values. *)
Lemma binary_view_bounds_witness :
  exists trace : list (option string_view),
    VisitStatus_binary WordCounter.make WordCounter.NextBlock BitUtil.GetBit Sample.string_slice record_status 2 []
    = Some (Status.OK, trace)
    /\ VisitVoid_binary WordCounter.make WordCounter.NextBlock BitUtil.GetBit Sample.string_slice record_void 2 [] = Some trace
    /\ List.length trace = Z.to_nat (ArrayData.length Sample.string_slice)
    /\ nth (Z.to_nat 1) trace None
       = Some {| sv_data := {| base := BufferData 2;
                               index := offsets_at Sample.string_slice 1 |};
                 sv_size := offsets_at Sample.string_slice (1 + 1)
                            - offsets_at Sample.string_slice 1 |}.
Proof.
  apply (binary_view_bounds
           WordCounter.t WordCounter.make WordCounter.NextBlock BitUtil.GetBit Sample.string_slice Sample.abcdefg 2 1).
  - reflexivity.
  - apply (WordCounter_array_scan_ok Sample.string_slice).
  - simpl; lia.
  - reflexivity.
  - vm_compute. split; [discriminate | reflexivity].
Defined.

(** C4 at the slice of the fixed-size binary array: its position 1 is the
    record at bytes 12 to 16, after a null. *)
Lemma fixed_size_binary_view_bounds_witness :
  exists trace : list (option string_view),
    VisitStatus_fixed_size_binary WordCounter.make WordCounter.NextBlock BitUtil.GetBit Sample.fixed_size_binary_slice record_status 3 []
    = Some (Status.OK, trace)
    /\ VisitVoid_fixed_size_binary WordCounter.make WordCounter.NextBlock BitUtil.GetBit Sample.fixed_size_binary_slice record_void 3 []
       = Some trace
    /\ List.length trace = Z.to_nat (ArrayData.length Sample.fixed_size_binary_slice)
    /\ nth (Z.to_nat 1) trace None
       = Some {| sv_data := {| base := BufferData 1; index := (2 + 1) * 4 |};
                 sv_size := 4 |}.
Proof.
  apply (fixed_size_binary_view_bounds
           WordCounter.t WordCounter.make WordCounter.NextBlock BitUtil.GetBit Sample.fixed_size_binary_slice
           [0; 1; 2; 3; 4; 5; 6; 7; 8; 9; 10; 11; 12; 13; 14; 15; 16; 17; 18; 19]
           3 1).
  - reflexivity.
  - apply (WordCounter_array_scan_ok Sample.fixed_size_binary_slice).
  - simpl; lia.
  - reflexivity.
  - vm_compute. split; [discriminate | reflexivity].
Defined.

(** C5 at offset 0 and length 3 without a bitmap; the value callbacks write
    [true] down when called for a value and [false] when called for a
    null. *)
Lemma absent_bitmap_every_position_valid_witness :
  VisitBitBlocks WordCounter.make WordCounter.NextBlock BitUtil.GetBit None 0 3
    (fun _ => record_status true) (record_status false) 3 []
  = Some (Status.OK, [true; true; true])
  /\ VisitBitBlocksVoid WordCounter.make WordCounter.NextBlock BitUtil.GetBit None 0 3
       (fun _ => record_void true) (record_void false) 3 []
     = Some [true; true; true]
  /\ VisitNullBitmapInline WordCounter.make WordCounter.NextBlock BitUtil.GetBit
       None 0 3 3 record_status 3 []
     = Some (Status.OK, [true; true; true])
  /\ VisitNullBitmapInlineVoid WordCounter.make WordCounter.NextBlock BitUtil.GetBit
       None 0 3 3 record_void 3 []
     = Some [true; true; true].
Proof.
  exact (absent_bitmap_every_position_valid
           WordCounter.t WordCounter.make WordCounter.NextBlock BitUtil.GetBit
           0 3 3
           (fun _ => record_status true) (record_status false)
           (fun _ => record_void true) (record_void false)
           record_status record_void 3 []
           (WordCounter_contract _ _ _) (le_n 3)).
Defined.

(** C6 at tag 36, the tag of no class: a visitor that counts its calls has
    counted none. *)
Lemma dispatchers_reject_unrecognized_tag_witness :
  let array := {| Array.data :=
                    {| ArrayData.type := Sample.unknown_type;
                       ArrayData.length := 0;
                       ArrayData.null_count := 0;
                       ArrayData.offset := 0;
                       ArrayData.buffers := [] |} |} in
  let scalar := {| Scalar.type := Sample.unknown_type; Scalar.value := None |} in
  VisitTypeInline Sample.type_id Sample.unknown_type Sample.counting_visitor O
  = (Status.NotImplemented "Type not implemented", O)
  /\ VisitArrayInline Sample.type_id array Sample.counting_visitor O
     = (Status.NotImplemented "Type not implemented", O)
  /\ VisitScalarInline Sample.type_id scalar Sample.counting_visitor O
     = (Status.NotImplemented "Scalar visitor for type not implemented unknown", O).
Proof.
  intros array scalar.
  destruct (dispatchers_reject_unrecognized_tag
              Sample.type_id Sample.unknown_type array scalar
              Sample.counting_visitor Sample.counting_visitor
              Sample.counting_visitor O)
    as (Htype & Harray & Hscalar & _);
    try (intros TYPE_CLASS; destruct TYPE_CLASS; discriminate).
  repeat split; assumption.
Defined.

(** C7 at the integer array, with a visitor that collects the values and
    fails at a null: the first null, at position 1, ends the visit. *)
Lemma ArrayDataVisitor_Visit_is_VisitStatus_witness :
  let visitor :=
    {| VisitNull := fun seen : list Z => (Status.Failure Status.Invalid "null", seen);
       VisitValue := fun (x : Z) (seen : list Z) => (Status.OK, seen ++ [x]) |} in
  ArrayDataVisitor_Visit
    (V := ArrayDataInlineVisitor_c_type
            WordCounter.make WordCounter.NextBlock BitUtil.GetBit)
    Sample.int32_array visitor 5 []
  = Some (Status.Failure Status.Invalid "null", [1])
  /\ VisitStatus_c_type WordCounter.make WordCounter.NextBlock BitUtil.GetBit
       Sample.int32_array Sample.fail_on_null 5 []
     = Some (Status.Failure Status.Invalid "null", [1]).
Proof.
  intros visitor.
  destruct (ArrayDataVisitor_Visit_is_VisitStatus
              WordCounter.t WordCounter.make WordCounter.NextBlock BitUtil.GetBit
              (Spec := ArrayDataInlineVisitorSpec_c_type
                         WordCounter.make WordCounter.NextBlock BitUtil.GetBit)
              Sample.int32_array visitor 5 []) as [Hsame Hscan].
  destruct (Hscan (WordCounter_array_scan_ok Sample.int32_array)) as [Hvisit _].
  split.
  - rewrite Hvisit. reflexivity.
  - reflexivity.
Defined.

(** C8 at a bitmap whose valid run, bits 60 to 67, crosses the boundary
    between positions 63 and 64: the positions the traversals report valid
    are those of the reference scans, 60 to 67. *)
Lemma block_traversal_agrees_with_bit_by_bit_scan_witness :
  VisitBitBlocks WordCounter.make WordCounter.NextBlock BitUtil.GetBit
    (Some Sample.boundary_bitmap) 0 128
    (fun i => record_status (60 <=? i)) (record_status false) 128 []
  = Some (Status.OK, map (fun i => (60 <=? i) && (i <=? 67)) (all_positions 128))
  /\ VisitBitBlocksVoid WordCounter.make WordCounter.NextBlock BitUtil.GetBit
       (Some Sample.boundary_bitmap) 0 128
       (fun i => record_void (60 <=? i)) (record_void false) 128 []
     = Some (map (fun i => (60 <=? i) && (i <=? 67)) (all_positions 128))
  /\ VisitNullBitmapInline WordCounter.make WordCounter.NextBlock BitUtil.GetBit
       (Some Sample.boundary_bitmap) 0 128 120 record_status 128 []
     = Some (Status.OK, map (fun i => (60 <=? i) && (i <=? 67)) (all_positions 128))
  /\ VisitNullBitmapInlineVoid WordCounter.make WordCounter.NextBlock BitUtil.GetBit
       (Some Sample.boundary_bitmap) 0 128 120 record_void 128 []
     = Some (map (fun i => (60 <=? i) && (i <=? 67)) (all_positions 128)).
Proof.
  destruct (block_traversal_agrees_with_bit_by_bit_scan
              WordCounter.t WordCounter.make WordCounter.NextBlock BitUtil.GetBit
              Sample.boundary_bitmap 0 128 120
              (fun i => record_status (60 <=? i)) (record_status false)
              (fun i => record_void (60 <=? i)) (record_void false)
              record_status record_void 128 []
              (WordCounter_contract _ _ _) (le_n 128))
    as (Hvalue & Hvalue_void & Hvalidity & Hvalidity_void).
  rewrite Hvalue, Hvalue_void, Hvalidity, Hvalidity_void.
  repeat split; vm_compute; reflexivity.
Defined.

(** C10 at three strings of length zero, the second of them null, without
    a value buffer. *)
Lemma binary_absent_value_buffer_witness :
  binary_data Sample.empty_strings = empty_value_ptr
  /\ ArrayData.load Sample.empty_strings empty_value_ptr = 0
  /\ exists trace : list (option string_view),
      VisitStatus_binary WordCounter.make WordCounter.NextBlock BitUtil.GetBit
        Sample.empty_strings record_status 3 [] = Some (Status.OK, trace)
      /\ VisitVoid_binary WordCounter.make WordCounter.NextBlock BitUtil.GetBit
           Sample.empty_strings record_void 3 [] = Some trace
      /\ List.length trace = 3%nat
      /\ forall i : Z,
          0 <= i < 3 ->
          is_valid BitUtil.GetBit (validity Sample.empty_strings) 0 i = true ->
          exists v : string_view,
            nth (Z.to_nat i) trace None = Some v
            /\ sv_data v = ptr_add empty_value_ptr (offsets_at Sample.empty_strings i)
            /\ base (sv_data v) = EmptyValue
            /\ (offsets_at Sample.empty_strings (i + 1)
                = offsets_at Sample.empty_strings i -> sv_size v = 0).
Proof.
  exact (binary_absent_value_buffer
           WordCounter.t WordCounter.make WordCounter.NextBlock BitUtil.GetBit
           Sample.empty_strings 3 eq_refl
           (WordCounter_array_scan_ok Sample.empty_strings)).
Defined.

(** The same array, run: empty views at [empty_value] for the two valid
    positions. *)
Example VisitVoid_empty_strings :
  VisitVoid_binary WordCounter.make WordCounter.NextBlock BitUtil.GetBit
    Sample.empty_strings record_void 3 []
  = Some [Some {| sv_data := empty_value_ptr; sv_size := 0 |};
          None;
          Some {| sv_data := empty_value_ptr; sv_size := 0 |}].
Proof. reflexivity. Qed.

(** The dispatchers at the tag of [Map] in the sample numbering: the
    visitor's method for [Map] is the one called. *)
Lemma dispatchers_visit_recognized_tag_witness :
  let map_type := Sample.data_type TypeClass.Map "map" in
  let array := {| Array.data :=
                    {| ArrayData.type := map_type;
                       ArrayData.length := 0;
                       ArrayData.null_count := 0;
                       ArrayData.offset := 0;
                       ArrayData.buffers := [] |} |} in
  let scalar := {| Scalar.type := map_type; Scalar.value := None |} in
  let visitor (X : Type) : TypeVisitor X (list TypeClass.t) :=
    fun TYPE_CLASS _ called => (Status.OK, called ++ [TYPE_CLASS]) in
  VisitTypeInline Sample.type_id map_type (visitor DataType.t) []
  = (Status.OK, [TypeClass.Map])
  /\ VisitArrayInline Sample.type_id array (visitor Array.t) []
     = (Status.OK, [TypeClass.Map])
  /\ VisitScalarInline Sample.type_id scalar (visitor Scalar.t) []
     = (Status.OK, [TypeClass.Map]).
Proof.
  intros map_type array scalar visitor.
  apply (dispatchers_visit_recognized_tag
           Sample.type_id TypeClass.Map map_type array scalar
           (visitor DataType.t) (visitor Array.t) (visitor Scalar.t) []).
  - intros a b; destruct a, b; simpl; intros H; first [reflexivity | discriminate H].
  - reflexivity.
  - reflexivity.
  - reflexivity.
Defined.

(** The boolean specialisation at a slice of three booleans, the second of
    them null: the log is [false, null, true]. *)
Lemma VisitArrayDataInline_calls_func_once_per_position_witness :
  let arr := {| ArrayData.type := Sample.data_type TypeClass.Boolean "bool";
                ArrayData.length := 3;
                ArrayData.null_count := 1;
                ArrayData.offset := 1;
                ArrayData.buffers := [Some [10]; Some [12]] |} in
  exists trace : list (option bool),
    VisitVoid_boolean WordCounter.make WordCounter.NextBlock BitUtil.GetBit
      arr record_void 3 [] = Some trace
    /\ VisitStatus_boolean WordCounter.make WordCounter.NextBlock BitUtil.GetBit
         arr record_status 3 [] = Some (Status.OK, trace)
    /\ List.length trace = 3%nat
    /\ forall i : Z,
        0 <= i < 3 ->
        nth (Z.to_nat i) trace None
        = optional_at BitUtil.GetBit arr
            (value_at_boolean BitUtil.GetBit) i.
Proof.
  intros arr.
  exact (VisitArrayDataInline_calls_func_once_per_position
           WordCounter.t WordCounter.make WordCounter.NextBlock BitUtil.GetBit
           (Spec := ArrayDataInlineVisitorSpec_boolean
                      WordCounter.make WordCounter.NextBlock BitUtil.GetBit)
           arr 3 (WordCounter_array_scan_ok arr)).
Defined.

(** The same slice, run. *)
Example VisitVoid_boolean_slice :
  VisitVoid_boolean WordCounter.make WordCounter.NextBlock BitUtil.GetBit
    {| ArrayData.type := Sample.data_type TypeClass.Boolean "bool";
       ArrayData.length := 3;
       ArrayData.null_count := 1;
       ArrayData.offset := 1;
       ArrayData.buffers := [Some [10]; Some [12]] |}
    record_void 3 []
  = Some [Some false; None; Some true].
Proof. reflexivity. Qed.

(** ** The further properties at sample inputs *)

(** X5 at validity [10110] with callbacks that fail with [Invalid] on a null:
    no traversal returns a "not implemented" status. *)
Lemma traversal_status_comes_from_callbacks_witness :
  let visit_not_null := fun (i : Z) (seen : list Z) => (Status.OK, seen ++ [i]) in
  let visit_null := fun (seen : list Z) => (Status.Failure Status.Invalid "null", seen) in
  let func := fun (valid : bool) (seen : list Z) =>
                if valid then (Status.OK, seen)
                else (Status.Failure Status.Invalid "null", seen) in
  (forall st c',
      VisitBitBlocks WordCounter.make WordCounter.NextBlock BitUtil.GetBit (Some [13]) 0 5 visit_not_null visit_null 5 [] = Some (st, c') ->
      Status.IsNotImplemented st = false)
  /\ (forall st c',
         VisitNullBitmapInline WordCounter.make WordCounter.NextBlock BitUtil.GetBit (Some [13]) 0 5 2 func 5 [] = Some (st, c') ->
         Status.IsNotImplemented st = false).
Proof.
  intros visit_not_null visit_null func.
  apply (traversal_status_comes_from_callbacks
           WordCounter.t WordCounter.make WordCounter.NextBlock BitUtil.GetBit (fun st => Status.IsNotImplemented st = false)
           (Some [13]) 0 5 2 visit_not_null visit_null func 5 []).
  - reflexivity.
  - reflexivity.
  - reflexivity.
  - intros [|] seen; reflexivity.
Defined.


(** X7 at the counter that reports only empty runs, length 1. *)
Lemma traversal_needs_counter_progress_witness :
  VisitBitBlocks Sample.stuck_make Sample.stuck_NextBlock BitUtil.GetBit None 0 1
    (fun _ => record_status true) (record_status false) 1000 [] = None
  /\ VisitBitBlocksVoid Sample.stuck_make Sample.stuck_NextBlock BitUtil.GetBit None 0 1
       (fun _ => record_void true) (record_void false) 1000 [] = None
  /\ VisitNullBitmapInline Sample.stuck_make Sample.stuck_NextBlock BitUtil.GetBit
       None 0 1 0 record_status 1000 [] = None
  /\ VisitNullBitmapInlineVoid Sample.stuck_make Sample.stuck_NextBlock BitUtil.GetBit
       None 0 1 0 record_void 1000 [] = None.
Proof.
  apply (traversal_needs_counter_progress
           unit Sample.stuck_make Sample.stuck_NextBlock BitUtil.GetBit None 0 1 0
           (fun _ => record_status true) (record_status false)
           (fun _ => record_void true) (record_void false)
           record_status record_void 1000 []).
  - intros counter. simpl. lia.
  - lia.
Defined.

(** X8 at validity [10110] with a callback that refuses nulls: position 1
    is the first null, and two calls are made. *)
Lemma VisitNullBitmapInline_fails_fast_witness :
  VisitNullBitmapInline WordCounter.make WordCounter.NextBlock BitUtil.GetBit (Some [13]) 0 5 2 Sample.fail_on_false 5 O
  = Some (Status.Failure Status.Invalid "null", 1%nat)
  /\ exists trace : list bool,
      VisitNullBitmapInline WordCounter.make WordCounter.NextBlock BitUtil.GetBit (Some [13]) 0 5 2
        (traced_value Sample.fail_on_false) 5 (O, [])
      = Some (Status.Failure Status.Invalid "null", (1%nat, trace))
      /\ trace = map (is_valid BitUtil.GetBit (Some [13]) 0) (all_positions (1 + 1))
      /\ Z.of_nat (List.length trace) = 1 + 1.
Proof.
  apply (VisitNullBitmapInline_fails_fast
           WordCounter.t WordCounter.make WordCounter.NextBlock BitUtil.GetBit (Some [13]) 0 5 2 Sample.fail_on_false 5 O 1
           (Status.Failure Status.Invalid "null") 1%nat 1%nat).
  - apply WordCounter_contract.
  - apply le_n.
  - lia.
  - reflexivity.
  - reflexivity.
  - reflexivity.
Defined.

(** X9 at the integer array with a callback that refuses nulls. *)
Lemma VisitArrayDataInline_fails_fast_witness :
  VisitStatus_c_type WordCounter.make WordCounter.NextBlock BitUtil.GetBit Sample.int32_array Sample.fail_on_null 5 []
  = Some (Status.Failure Status.Invalid "null", [1])
  /\ exists trace : list (option Z),
      VisitStatus_c_type WordCounter.make WordCounter.NextBlock BitUtil.GetBit Sample.int32_array
        (traced_value Sample.fail_on_null) 5 ([], [])
      = Some (Status.Failure Status.Invalid "null", ([1], trace))
      /\ trace = map (optional_at BitUtil.GetBit Sample.int32_array value_at_c_type)
                     (all_positions (1 + 1))
      /\ Z.of_nat (List.length trace) = 1 + 1.
Proof.
  apply (VisitArrayDataInline_fails_fast
           WordCounter.t WordCounter.make WordCounter.NextBlock BitUtil.GetBit (Spec := ArrayDataInlineVisitorSpec_c_type WordCounter.make WordCounter.NextBlock BitUtil.GetBit)
           Sample.int32_array Sample.fail_on_null 5 [] 1
           (Status.Failure Status.Invalid "null") [1] [1]).
  - apply (WordCounter_array_scan_ok Sample.int32_array).
  - simpl; lia.
  - reflexivity.
  - reflexivity.
  - reflexivity.
Defined.

(** X10 at the boundary bitmap: 128 positions visited as 60 and then 68. *)
Lemma traversal_in_two_pieces_witness :
  VisitBitBlocks WordCounter.make WordCounter.NextBlock BitUtil.GetBit (Some Sample.boundary_bitmap) 0 (60 + 68)
    (fun i => record_status (Some i)) (record_status None) 128 []
  = match VisitBitBlocks WordCounter.make WordCounter.NextBlock BitUtil.GetBit (Some Sample.boundary_bitmap) 0 60
            (fun i => record_status (Some i)) (record_status None) 128 [] with
    | Some (st, c1) =>
        if Status.ok st then
          VisitBitBlocks WordCounter.make WordCounter.NextBlock BitUtil.GetBit (Some Sample.boundary_bitmap) (0 + 60) 68
            (fun i => record_status (Some (60 + i))) (record_status None) 128 c1
        else Some (st, c1)
    | None => None
    end
  /\ VisitNullBitmapInline WordCounter.make WordCounter.NextBlock BitUtil.GetBit (Some Sample.boundary_bitmap) 0 (60 + 68) 120
       (fun valid => record_status (if valid then Some 1 else None)) 128 []
     = match VisitNullBitmapInline WordCounter.make WordCounter.NextBlock BitUtil.GetBit (Some Sample.boundary_bitmap) 0 60 120
               (fun valid => record_status (if valid then Some 1 else None)) 128 []
       with
       | Some (st, c1) =>
           if Status.ok st then
             VisitNullBitmapInline WordCounter.make WordCounter.NextBlock BitUtil.GetBit (Some Sample.boundary_bitmap) (0 + 60) 68 120
               (fun valid => record_status (if valid then Some 1 else None)) 128 c1
           else Some (st, c1)
       | None => None
       end.
Proof.
  apply (traversal_in_two_pieces
           WordCounter.t WordCounter.make WordCounter.NextBlock BitUtil.GetBit (Some Sample.boundary_bitmap) 0 60 68 120
           (fun i => record_status (Some i)) (record_status None)
           (fun valid => record_status (if valid then Some 1 else None)) 128 []).
  - lia.
  - lia.
  - apply WordCounter_contract.
  - apply WordCounter_contract.
  - apply WordCounter_contract.
  - apply le_n.
Defined.

(** X11 at the boundary bitmap: 8 valid positions and 120 nulls among 128,
    with a [null_count] argument of 0. *)
Lemma VisitNullBitmapInline_counts_valid_and_null_witness :
  VisitNullBitmapInlineVoid WordCounter.make WordCounter.NextBlock BitUtil.GetBit (Some Sample.boundary_bitmap) 0 128 0
    count_validity 128 (0, 0)
  = Some (8, 120).
Proof.
  destruct (VisitNullBitmapInline_counts_valid_and_null
              WordCounter.t WordCounter.make WordCounter.NextBlock BitUtil.GetBit (Some Sample.boundary_bitmap) 0 128 0 128
              (WordCounter_contract _ _ _) (le_n 128) ltac:(lia)) as [Hcount _].
  rewrite Hcount. vm_compute. reflexivity.
Defined.

(** X12 at the string array and its slice from element 1. *)
Lemma slice_is_visited_as_part_of_whole_witness :
  exists log_whole log_piece : list (option string_view),
    VisitVoid_binary WordCounter.make WordCounter.NextBlock BitUtil.GetBit Sample.string_array record_void 3 [] = Some log_whole
    /\ VisitVoid_binary WordCounter.make WordCounter.NextBlock BitUtil.GetBit Sample.string_slice record_void 2 [] = Some log_piece
    /\ log_piece = firstn (Z.to_nat 2) (skipn (Z.to_nat 1) log_whole).
Proof.
  destruct (slice_is_visited_as_part_of_whole
              WordCounter.t WordCounter.make WordCounter.NextBlock BitUtil.GetBit Sample.string_array Sample.string_slice 1 [0; 3; 3; 7] 3 2)
    as (_ & _ & Hbinary & _).
  - split; reflexivity.
  - reflexivity.
  - reflexivity.
  - lia.
  - simpl; lia.
  - simpl; lia.
  - apply (WordCounter_array_scan_ok Sample.string_array).
  - apply (WordCounter_array_scan_ok Sample.string_slice).
  - exact Hbinary.
Defined.

(** X13 at the integer array and the array with other integers under its
    nulls. *)
Lemma values_under_nulls_are_not_visited_witness :
  VisitStatus_c_type WordCounter.make WordCounter.NextBlock BitUtil.GetBit Sample.int32_array record_status 5 []
  = VisitStatus_c_type WordCounter.make WordCounter.NextBlock BitUtil.GetBit Sample.int32_array_other_nulls record_status 5 []
  /\ VisitVoid_c_type WordCounter.make WordCounter.NextBlock BitUtil.GetBit Sample.int32_array record_void 5 []
     = VisitVoid_c_type WordCounter.make WordCounter.NextBlock BitUtil.GetBit Sample.int32_array_other_nulls record_void 5 [].
Proof.
  apply (values_under_nulls_are_not_visited
           WordCounter.t WordCounter.make WordCounter.NextBlock BitUtil.GetBit (Spec := ArrayDataInlineVisitorSpec_c_type WordCounter.make WordCounter.NextBlock BitUtil.GetBit)
           Sample.int32_array Sample.int32_array_other_nulls
           record_status record_void 5 []).
  - reflexivity.
  - reflexivity.
  - reflexivity.
  - intros i Hi Hvalid. simpl in Hi.
    assert (Hcases : i = 0 \/ i = 1 \/ i = 2 \/ i = 3 \/ i = 4) by lia.
    destruct Hcases as [-> | [-> | [-> | [-> | ->]]]];
      first [reflexivity | discriminate Hvalid].
  - apply (WordCounter_array_scan_ok Sample.int32_array).
Defined.

(** X14 at position 2 of the integer array. *)
Lemma numeric_and_boolean_value_at_position_witness :
  exists trace : list (option Z),
    VisitStatus_c_type WordCounter.make WordCounter.NextBlock BitUtil.GetBit Sample.int32_array record_status 5 []
    = Some (Status.OK, trace)
    /\ VisitVoid_c_type WordCounter.make WordCounter.NextBlock BitUtil.GetBit Sample.int32_array record_void 5 [] = Some trace
    /\ List.length trace = 5%nat
    /\ nth 2 trace None = Some 3.
Proof.
  destruct (numeric_and_boolean_value_at_position
              WordCounter.t WordCounter.make WordCounter.NextBlock BitUtil.GetBit Sample.int32_array [1; 0; 3; 4; 0] 5 2 eq_refl
              (WordCounter_array_scan_ok Sample.int32_array)
              ltac:(simpl; lia) eq_refl) as [Hnumeric _].
  exact Hnumeric.
Defined.

(** X15 at positions 1 and 2 of the fixed-size binary slice. *)
Lemma fixed_size_binary_views_do_not_overlap_witness :
  exists (trace : list (option string_view)) (view_i view_j : string_view),
    VisitVoid_fixed_size_binary WordCounter.make WordCounter.NextBlock BitUtil.GetBit Sample.fixed_size_binary_slice record_void 3 []
    = Some trace
    /\ nth (Z.to_nat 1) trace None = Some view_i
    /\ nth (Z.to_nat 2) trace None = Some view_j
    /\ base (sv_data view_i) = base (sv_data view_j)
    /\ sv_size view_i = 4
    /\ index (sv_data view_i) + sv_size view_i <= index (sv_data view_j).
Proof.
  apply (fixed_size_binary_views_do_not_overlap
           WordCounter.t WordCounter.make WordCounter.NextBlock BitUtil.GetBit Sample.fixed_size_binary_slice
           [0; 1; 2; 3; 4; 5; 6; 7; 8; 9; 10; 11; 12; 13; 14; 15; 16; 17; 18; 19]
           3 1 2).
  - reflexivity.
  - apply (WordCounter_array_scan_ok Sample.fixed_size_binary_slice).
  - lia.
  - lia.
  - simpl; lia.
  - reflexivity.
  - reflexivity.
  - vm_compute. split; [discriminate | reflexivity].
Defined.

(** X16 at positions 0 and 2 of the string array. *)
Lemma binary_views_do_not_overlap_witness :
  exists (trace : list (option string_view)) (view_i view_j : string_view),
    VisitVoid_binary WordCounter.make WordCounter.NextBlock BitUtil.GetBit Sample.string_array record_void 3 [] = Some trace
    /\ nth (Z.to_nat 0) trace None = Some view_i
    /\ nth (Z.to_nat 2) trace None = Some view_j
    /\ base (sv_data view_i) = base (sv_data view_j)
    /\ sv_size view_i
       = offsets_at Sample.string_array (0 + 1) - offsets_at Sample.string_array 0
    /\ index (sv_data view_i) + sv_size view_i <= index (sv_data view_j).
Proof.
  apply (binary_views_do_not_overlap WordCounter.t WordCounter.make WordCounter.NextBlock BitUtil.GetBit Sample.string_array 3 0 2).
  - apply (WordCounter_array_scan_ok Sample.string_array).
  - lia.
  - lia.
  - simpl; lia.
  - reflexivity.
  - reflexivity.
  - intros k Hk.
    assert (Hcases : k = 0 \/ k = 1) by lia.
    destruct Hcases as [-> | ->]; vm_compute; discriminate.
  - vm_compute. reflexivity.
Defined.

(** X18 at the boundary bitmap, with a callback that refuses nulls. *)
Lemma VisitNullBitmapInline_is_VisitBitBlocks_witness :
  let func := fun (valid : bool) (seen : list bool) =>
                if valid then (Status.OK, seen ++ [valid])
                else (Status.Failure Status.Invalid "null", seen) in
  VisitNullBitmapInline WordCounter.make WordCounter.NextBlock BitUtil.GetBit
    (Some Sample.boundary_bitmap) 0 128 120 func 128 []
  = VisitBitBlocks WordCounter.make WordCounter.NextBlock BitUtil.GetBit
      (Some Sample.boundary_bitmap) 0 128 (fun _ => func true) (func false) 128 []
  /\ VisitNullBitmapInlineVoid WordCounter.make WordCounter.NextBlock BitUtil.GetBit
       (Some Sample.boundary_bitmap) 0 128 120 record_void 128 []
     = VisitBitBlocksVoid WordCounter.make WordCounter.NextBlock BitUtil.GetBit
         (Some Sample.boundary_bitmap) 0 128
         (fun _ => record_void true) (record_void false) 128 [].
Proof.
  intros func.
  exact (VisitNullBitmapInline_is_VisitBitBlocks
           WordCounter.t WordCounter.make WordCounter.NextBlock BitUtil.GetBit
           (Some Sample.boundary_bitmap) 0 128 120
           func record_void 128 []
           (WordCounter_contract _ _ _) (le_n 128)).
Defined.
